(** * asymmetricfs: the open-file engine of [implementation.cpp]

    A shallow embedding of the per-handle open-file engine of asymmetricfs
    (class [asymmetricfs] and its nested class [internal]) together with the
    properties of its callbacks.

    The host kernel and the cipher tool are external to the program.  They
    appear here as an interface, the class [Host]: every system call made by
    the source is a method of that class, and the callbacks are defined over
    an arbitrary instance.  [SimpleHost] is one concrete instance (a small
    POSIX-like file store with a toy armoured cipher) on which the callbacks
    can be run.

    The callbacks that touch the tables run under one lock ([mx_]), so a
    run of the file system is a sequence of callbacks, each a function from
    the mount and the host to the new mount, the new host and the reply.
    A callback that hits a failed [assert] or reads outside a buffer has no
    result ([None]).  Memory is taken to be unlimited.

    The callbacks outside the engine that do more than pass a call through,
    [readdir] and [readlink], are modelled over their own view of the host
    (a directory stream, a link target), and so is the one computation of
    the test suite's key helper, the search for the key id in gpg's
    output. *)

From Stdlib Require Import ZArith List Bool Lia Sorting.Sorted.
From Stdlib Require Import Strings.String Strings.Byte.
From stdpp Require Import gmap strings list fin_maps.

Local Open Scope Z_scope.

(** ** Constants of the platform headers

    [fcntl.h], [unistd.h], [errno.h] and [sys/stat.h] are not part of the
    repository; the values are those of Linux. *)

Definition O_RDONLY  : Z := 0.
Definition O_WRONLY  : Z := 1.
Definition O_RDWR    : Z := 2.
Definition O_ACCMODE : Z := 3.
Definition O_CREAT   : Z := 64.
Definition O_EXCL    : Z := 128.
Definition O_TRUNC   : Z := 512.
Definition O_APPEND  : Z := 1024.

Definition F_OK : Z := 0.
Definition X_OK : Z := 1.
Definition W_OK : Z := 2.
Definition R_OK : Z := 4.

Definition EPERM  : Z := 1.
Definition ENOENT : Z := 2.
Definition EIO    : Z := 5.
Definition EBADF  : Z := 9.
Definition EACCES : Z := 13.
Definition EFAULT : Z := 14.
Definition EEXIST : Z := 17.
Definition EINVAL : Z := 22.

Definition S_IFMT  : Z := 61440.
Definition S_IFDIR : Z := 16384.
Definition S_IFREG : Z := 32768.
Definition S_IRUSR : Z := 256.
Definition S_IWUSR : Z := 128.
Definition S_IRGRP : Z := 32.
Definition S_IROTH : Z := 4.

Definition INT_MAX : Z := 2147483647.
Definition OFF_MAX : Z := 9223372036854775807.

(** [flags & bit] read as a C condition. *)
Definition has_flag (flags bit : Z) : bool := negb (Z.land flags bit =? 0).

(** [static_cast<int>] of a [size_t]: reduction to 32 bits, two's complement. *)
Definition to_int (z : Z) : Z := (z + 2 ^ 31) mod 2 ^ 32 - 2 ^ 31.

(** Arithmetic of [unsigned] (the reference counter). *)
Definition to_unsigned (z : Z) : Z := z mod 2 ^ 32.

(** Arithmetic of [size_t]. *)
Definition to_size_t (z : Z) : Z := z mod 2 ^ 64.

(** ** Byte buffers ([std::string] used as a byte vector) *)

Definition buf_size (b : list byte) : Z := Z.of_nat (length b).

(** [std::string::resize(n)]: cut, or pad with NUL bytes. *)
Definition resize (n : Z) (b : list byte) : list byte :=
  take (Z.to_nat n) b ++ replicate (Z.to_nat n - length b)%nat x00.

(** [memcpy(&b[offset], src, |src|)], for [offset + |src| <= |b|]. *)
Definition memcpy_at (b : list byte) (offset : Z) (src : list byte) : list byte :=
  take (Z.to_nat offset) b ++ src ++ drop (Z.to_nat offset + length src)%nat b.

(** [memcpy(out, b + offset, n)]: the bytes that reach the caller. *)
Definition copy_out (b : list byte) (offset n : Z) : list byte :=
  take (Z.to_nat n) (drop (Z.to_nat offset) b).

#[global] Instance byte_eq_dec : EqDecision byte := Byte.byte_eq_dec.

(** [memcmp(a, b, |a|) == 0] for two runs of the same length. *)
Definition bytes_eqb (a b : list byte) : bool :=
  bool_decide (a = b).

(** The armour trailer that ends every encrypted block. *)
Definition terminator : list byte :=
  list_byte_of_string "-----END PGP MESSAGE-----" ++ [x0a].
Definition terminator_size : Z := Eval cbv in buf_size terminator.

(** ** Results of system calls *)

Inductive sysres (A : Type) : Type :=
| Ok (a : A)
| Err (errno : Z).
Arguments Ok {A} a.
Arguments Err {A} errno.

Record stat := mkStat { st_mode : Z; st_size : Z }.

(** Standard input of a cipher child: a descriptor handed over as it is, or
    bytes pushed through a pipe. *)
Inductive gpg_stdin : Type :=
| StdinFd (fd : Z)
| StdinBytes (bytes : list byte).

(** Modelled from the spec: class [subprocess] ([subprocess.h]), which
    spawns the cipher tool, is not among the sources.  By the spec,
    [communicate] feeds the child's standard input and fills the output
    buffer until the buffer is full, or the input is written and the output
    has ended, or an error occurs (a non-zero return), and [wait] returns
    the exit status.  A decrypting child is summed up by what it did: the
    bytes of its standard output that [communicate] delivered, the value
    the last [communicate] returned (0 unless the exchange broke) and the
    exit status. *)
Record gpg_output := mkOutput {
  out_bytes : list byte;
  out_cret : Z;
  out_wait : Z
}.

(** A recipient is a validated key fingerprint. *)
Definition gpg_recipient := string.

(** ** The host interface

    One method per system call of [implementation.cpp].  A call takes the
    host state and returns the new one with its result; calls that only
    inspect the host return the result alone. *)

Class Host (H : Type) : Type := {
  (** [openat(root_, relpath, flags[, mode])] and [open(relpath, flags)]. *)
  sys_openat : H -> string -> Z -> option Z -> H * sysres Z;
  sys_close : H -> Z -> H * sysres unit;
  sys_fstat : H -> Z -> sysres stat;
  sys_lstat : H -> string -> sysres stat;
  sys_ftruncate : H -> Z -> Z -> H * sysres unit;
  sys_truncate : H -> string -> Z -> H * sysres unit;
  sys_rename : H -> string -> string -> H * sysres unit;
  sys_access : H -> string -> Z -> sysres unit;
  (** [mmap(NULL, size, PROT_READ, MAP_SHARED, fd, 0)]: the mapped bytes. *)
  sys_mmap : H -> Z -> Z -> sysres (list byte);
  (** [gpg -ae --no-tty --batch -r ...] with standard output on [fd], fed
      the plaintext; the exit status. *)
  sys_gpg_encrypt : H -> list gpg_recipient -> Z -> list byte -> H * Z;
  (** [gpg -d --no-tty --batch], run to completion. *)
  sys_gpg_decrypt : H -> gpg_stdin -> H * gpg_output
}.

(** ** The open-file state: class [asymmetricfs::internal] *)

Module internal.

Record t : Type := mk {
  fd : Z;
  flags : Z;
  references : Z;
  path : string;
  buffer_set : bool;
  dirty : bool;
  buffer : list byte;
  open_ : bool
}.

Definition set_references (v : Z) (s : t) : t :=
  mk (fd s) (flags s) v (path s) (buffer_set s) (dirty s) (buffer s) (open_ s).
Definition set_path (v : string) (s : t) : t :=
  mk (fd s) (flags s) (references s) v (buffer_set s) (dirty s) (buffer s) (open_ s).
Definition set_buffer_set (v : bool) (s : t) : t :=
  mk (fd s) (flags s) (references s) (path s) v (dirty s) (buffer s) (open_ s).
Definition set_dirty (v : bool) (s : t) : t :=
  mk (fd s) (flags s) (references s) (path s) (buffer_set s) v (buffer s) (open_ s).
Definition set_buffer (v : list byte) (s : t) : t :=
  mk (fd s) (flags s) (references s) (path s) (buffer_set s) (dirty s) v (open_ s).
Definition set_open_ (v : bool) (s : t) : t :=
  mk (fd s) (flags s) (references s) (path s) (buffer_set s) (dirty s) (buffer s) v.

(** The constructor sets [references(0)], [dirty(false)] and [open_(true)];
    the caller then assigns [fd], [flags], [path], [references] and, in
    [create] and [open], [buffer_set].  [buffer] starts empty. *)
Definition new (fd_ flags_ : Z) (path_ : string) (references_ : Z)
    (buffer_set_ : bool) : t :=
  mk fd_ flags_ references_ path_ buffer_set_ false [] true.

Definition chunk_size : Z := 1048576.

(** The exchange with one decrypting child: the loop that reads its output
    in chunks of [chunk_size] into the tail of [buffer].  Every round grows
    the buffer by one chunk and shrinks it to what was read; the round in
    which [communicate] fails keeps the whole chunk and sets [ret]. *)
Definition communicate (buf : list byte) (o : gpg_output) (ret : Z)
    : list byte * Z :=
  if out_cret o =? 0 then (buf ++ out_bytes o, ret)
  else
    let got := buf_size (out_bytes o) mod chunk_size in
    (buf ++ out_bytes o ++ replicate (Z.to_nat (chunk_size - got)) x00,
     - out_cret o).

(** The inner [for] of [load_buffer]: the first position at or after
    [new_offset], not beyond [limit], where the terminator starts, moved
    past the terminator; or the first position beyond [limit]. *)
Fixpoint scan_terminator (fuel : nat) (underlying : list byte)
    (limit new_offset : Z) : Z :=
  match fuel with
  | O => new_offset
  | S fuel' =>
      if new_offset <=? limit then
        if bytes_eqb terminator
             (take (Z.to_nat terminator_size)
                (drop (Z.to_nat new_offset) underlying))
        then new_offset + terminator_size
        else scan_terminator fuel' underlying limit (new_offset + 1)
      else new_offset
  end.

(** [fd_size - terminator_size] is computed in [size_t]: for a mapping
    shorter than the terminator it wraps around and the scan reads past the
    mapping, which has no defined result ([None]). *)
Definition find_terminator (underlying : list byte) (fd_size offset : Z)
    : option Z :=
  if fd_size <? terminator_size then None
  else
    let limit := fd_size - terminator_size in
    Some (scan_terminator (Z.to_nat (limit - offset + 1)) underlying limit offset).

Section with_host.
Context {H : Type} `{Host H}.

(** [internal::close]: flush when dirty, then close the descriptor.  The
    recipient list is the mount's, which the state holds by reference. *)
Definition close (recipients : list gpg_recipient) (h : H) (s : t)
    : H * t * Z :=
  if negb (open_ s) then (h, s, 0)
  else
    let '(h1, s1, ret) :=
      if dirty s then
        let '(h', wait_ret) := sys_gpg_encrypt h recipients (fd s) (buffer s) in
        (h', set_dirty false s, if wait_ret =? 0 then 0 else - EIO)
      else (h, s, 0) in
    let s2 := set_open_ false s1 in
    let '(h2, close_ret) := sys_close h1 (fd s) in
    (h2, s2,
     if negb (ret =? 0) then ret
     else match close_ret with Ok _ => 0 | Err errno => errno end).

(** The outer [for] of [load_buffer], one round per encrypted block.
    [None] is an abort: a failed [assert], or the undefined scan of
    [find_terminator].  Every round but the last moves [offset] forward, so
    [fuel] beyond [fd_size - offset] is never used up (see
    [load_blocks_fuel]). *)
Fixpoint load_blocks (fuel : nat) (underlying : list byte) (fd_size : Z)
    (h : H) (s : t) (ret offset : Z) : option (H * t * Z) :=
  if offset <? fd_size then
    match fuel with
    | O => None
    | S fuel' =>
        match find_terminator underlying fd_size offset with
        | None => None
        | Some new_offset =>
            if negb ((offset <=? new_offset) && (new_offset <=? fd_size))
            then None
            else
              let single := (offset =? 0) && (new_offset =? fd_size) in
              let write_size := new_offset - offset in
              if negb single && (write_size =? 0) then Some (h, s, ret)
              else
                let gpg_in :=
                  if single then StdinFd (fd s)
                  else StdinBytes (take (Z.to_nat write_size)
                                     (drop (Z.to_nat offset) underlying)) in
                let '(h', o) := sys_gpg_decrypt h gpg_in in
                let '(buf', ret') := communicate (buffer s) o ret in
                let s' := set_buffer buf' s in
                if negb (out_wait o =? 0)
                then Some (h', set_buffer_set false s', EIO)
                else load_blocks fuel' underlying fd_size h' s' ret' new_offset
        end
    end
  else Some (h, s, ret).

(** [internal::load_buffer]: returns 0, or an error code. *)
Definition load_buffer (h : H) (s : t) : option (H * t * Z) :=
  if buffer_set s then Some (h, s, 0)
  else if negb (open_ s) then None
  else
    let s1 := set_buffer [] (set_dirty false s) in
    match sys_fstat h (fd s) with
    | Err errno => Some (h, s1, errno)
    | Ok fd_stat =>
        if st_size fd_stat <=? 0 then Some (h, set_buffer_set true s1, 0)
        else
          let fd_size := st_size fd_stat in
          match sys_mmap h (fd s) fd_size with
          | Err errno => Some (h, s1, errno)
          | Ok underlying =>
              load_blocks (Z.to_nat fd_size) underlying fd_size h
                (set_buffer_set true s1) 0 0
          end
    end.

End with_host.

End internal.

(** ** [struct fuse_file_info]: the fields the callbacks use *)

Module fuse_file_info.

Record t : Type := mk { flags : Z; fh : Z }.

Definition set_flags (v : Z) (i : t) : t := mk v (fh i).
Definition set_fh (v : Z) (i : t) : t := mk (flags i) v.

End fuse_file_info.

(** ** The mount object: class [asymmetricfs] *)

Module asymmetricfs.

(** [root_] and [root_set_] are fixed before serving starts ([set_target],
    [init]); the host resolves every relative path beneath the backing
    root, so they are not kept here.

    Modelled from the spec: the handle id type [fd_t] is declared in
    [implementation.h], which is not among the sources; following the
    spec's data model it is an integer counted up from zero, without a
    bound. *)
Record t : Type := mk {
  read_ : bool;
  next_ : Z;
  open_paths_ : gmap string Z;
  open_fds_ : gmap Z internal.t;
  recipients_ : list gpg_recipient
}.

Definition set_read_ (v : bool) (fs : t) : t :=
  mk v (next_ fs) (open_paths_ fs) (open_fds_ fs) (recipients_ fs).
Definition set_next_ (v : Z) (fs : t) : t :=
  mk (read_ fs) v (open_paths_ fs) (open_fds_ fs) (recipients_ fs).
Definition set_open_paths_ (v : gmap string Z) (fs : t) : t :=
  mk (read_ fs) (next_ fs) v (open_fds_ fs) (recipients_ fs).
Definition set_open_fds_ (v : gmap Z internal.t) (fs : t) : t :=
  mk (read_ fs) (next_ fs) (open_paths_ fs) v (recipients_ fs).
Definition set_recipients_ (v : list gpg_recipient) (fs : t) : t :=
  mk (read_ fs) (next_ fs) (open_paths_ fs) (open_fds_ fs) v.

(** [asymmetricfs::asymmetricfs()]. *)
Definition init : t := mk false 0 ∅ ∅ [].

Definition set_read (r : bool) (fs : t) : t := set_read_ r fs.

(** [set_recipients] throws when files are open ([None]). *)
Definition set_recipients (recipients : list gpg_recipient) (fs : t)
    : option t :=
  if bool_decide (open_fds_ fs = ∅) then Some (set_recipients_ recipients fs)
  else None.

(** [std::map::insert]: an existing key keeps its value. *)
Definition map_insert `{Countable K} {V : Type} (k : K) (v : V)
    (m : gmap K V) : gmap K V :=
  match m !! k with
  | Some _ => m
  | None => <[k:=v]> m
  end.

Definition relpath (path : string) : string := String.append "." path.

Definition make_rdwr (fs : t) (flags : Z) : Z :=
  if negb (read_ fs) then flags
  else if has_flag flags O_RDONLY then flags
  else
    let flags := Z.land flags (Z.lnot O_RDONLY) in
    let flags := Z.land flags (Z.lnot O_WRONLY) in
    Z.lor flags O_RDWR.

Definition next_fd (fs : t) : Z * t := (next_ fs, set_next_ (next_ fs + 1) fs).

(** The tail shared by [create] and [open]: record the new open file. *)
Definition register (fs : t) (path : string) (data : internal.t) : Z * t :=
  let '(fd, fs) := next_fd fs in
  let fs := set_open_paths_ (map_insert path fd (open_paths_ fs)) fs in
  let fs := set_open_fds_ (map_insert fd data (open_fds_ fs)) fs in
  (fd, fs).

Section with_host.
Context {H : Type} `{Host H}.

(** Every callback maps the mount and the host to [None] (the process
    aborted) or to the new mount, the new host, the returned [int] and
    whatever else the callback hands back. *)

Definition create (fs : t) (h : H) (path : string) (mode : Z)
    (info : fuse_file_info.t) : option (t * H * Z * fuse_file_info.t) :=
  let info := fuse_file_info.set_flags
                (Z.lor (fuse_file_info.flags info) O_CREAT) info in
  let flags := fuse_file_info.flags info in
  let finish (h : H) (ret : Z) :=
    let data := internal.new ret flags path 1 true in
    let '(fd, fs) := register fs path data in
    Some (fs, h, 0, fuse_file_info.set_fh fd info) in
  match sys_openat h (relpath path) (make_rdwr fs flags) (Some mode) with
  | (h, Ok ret) => finish h ret
  | (h, Err errno) =>
      if read_ fs && has_flag flags O_WRONLY && (errno =? EACCES) then
        match sys_openat h (relpath path) flags (Some mode) with
        | (h, Ok ret) => finish h ret
        | (h, Err errno) => Some (fs, h, - errno, info)
        end
      else Some (fs, h, - errno, info)
  end.

Definition for_reading (flags : Z) : bool :=
  let access_mode := Z.land flags O_ACCMODE in
  (access_mode =? O_RDWR) || (access_mode =? O_RDONLY).

(** The flags [open] passes on: in write-only mode a reader that asks for
    [O_CREAT] gets [O_EXCL] as well. *)
Definition open_flags (fs : t) (flags : Z) : Z :=
  if negb (read_ fs) && for_reading flags then
    if has_flag flags O_CREAT then Z.lor flags O_EXCL else flags
  else flags.

Definition open (fs : t) (h : H) (path : string) (info : fuse_file_info.t)
    : option (t * H * Z * fuse_file_info.t) :=
  match open_paths_ fs !! path with
  | Some id =>
      let info := fuse_file_info.set_fh id info in
      match open_fds_ fs !! id with
      | None => None
      | Some s =>
          let s := internal.set_references
                     (to_unsigned (internal.references s + 1)) s in
          Some (set_open_fds_ (<[id:=s]> (open_fds_ fs)) fs, h, 0, info)
      end
  | None =>
      let reading := for_reading (fuse_file_info.flags info) in
      let flags := open_flags fs (fuse_file_info.flags info) in
      let finish (h : H) (ret : Z) :=
        let buffer_set :=
          match sys_fstat h ret with
          | Ok buf => st_size buf =? 0
          | Err _ => false
          end in
        let data := internal.new ret flags path 1 buffer_set in
        let '(fd, fs) := register fs path data in
        Some (fs, h, 0, fuse_file_info.set_fh fd info) in
      match sys_openat h (relpath path) (make_rdwr fs flags) None with
      | (h, Ok ret) => finish h ret
      | (h, Err errno) =>
          if read_ fs && negb reading && (errno =? EACCES) then
            match sys_openat h (relpath path) flags None with
            | (h, Ok ret) => finish h ret
            | (h, Err errno) => Some (fs, h, - errno, info)
            end
          else Some (fs, h, - errno, info)
      end
  end.

(** [read]: the returned pair is the [int] and the bytes copied into the
    caller's buffer. *)
Definition read (fs : t) (h : H) (size offset_ : Z)
    (info : fuse_file_info.t) : option (t * H * Z * list byte) :=
  match open_fds_ fs !! fuse_file_info.fh info with
  | None => Some (fs, h, - EBADF, [])
  | Some s =>
      if offset_ <? 0 then Some (fs, h, 0, [])
      else
        let offset := offset_ in
        if negb (read_ fs) then
          if negb (internal.buffer_set s)
             && (has_flag (internal.flags s) O_APPEND
                 || negb (has_flag (internal.flags s) O_CREAT))
          then Some (fs, h, - EACCES, [])
          else
            let str := internal.buffer s in
            let str_size := buf_size str in
            if str_size <? offset then Some (fs, h, 0, [])
            else
              let remaining :=
                Z.min (Z.min (str_size - offset) size) INT_MAX in
              Some (fs, h, to_int remaining, copy_out str offset remaining)
        else
          match internal.load_buffer h s with
          | None => None
          | Some (h, s, ret) =>
              let fs := set_open_fds_
                          (<[fuse_file_info.fh info:=s]> (open_fds_ fs)) fs in
              if negb (ret =? 0) then Some (fs, h, - ret, [])
              else if negb (internal.buffer_set s) then None
              else
                let str := internal.buffer s in
                let str_size := buf_size str in
                if str_size <=? offset then Some (fs, h, 0, [])
                else
                  let remaining := Z.min (str_size - offset) size in
                  if negb (remaining <? INT_MAX) then None
                  else Some (fs, h, to_int remaining, copy_out str 0 remaining)
          end
  end.

(** [write]: [data] is the caller's buffer, [size] its length.  A sum
    [offset + size] beyond [size_t] wraps around and the copy leaves the
    buffer ([None]). *)
Definition write (fs : t) (h : H) (data : list byte) (offset_ : Z)
    (info : fuse_file_info.t) : option (t * H * Z) :=
  let size := buf_size data in
  match open_fds_ fs !! fuse_file_info.fh info with
  | None => Some (fs, h, - EBADF)
  | Some s =>
      if size =? 0 then Some (fs, h, 0)
      else if offset_ <? 0 then Some (fs, h, - EINVAL)
      else
        let offset := offset_ in
        let new_size :=
          Z.max (buf_size (internal.buffer s)) (to_size_t (offset + size)) in
        if new_size <? offset + size then None
        else
          let buf := memcpy_at (resize new_size (internal.buffer s)) offset data in
          let s := internal.set_dirty true (internal.set_buffer buf s) in
          Some (set_open_fds_ (<[fuse_file_info.fh info:=s]> (open_fds_ fs)) fs,
                h, to_int size)
  end.

Definition truncatefd (fs : t) (h : H) (fd : Z) (offset : Z)
    : option (t * H * Z) :=
  match open_fds_ fs !! fd with
  | None => Some (fs, h, - EBADF)
  | Some s =>
      if offset <? 0 then Some (fs, h, - EINVAL)
      else if offset =? 0 then
        match sys_ftruncate h (internal.fd s) 0 with
        | (h, Err errno) => Some (fs, h, - errno)
        | (h, Ok _) =>
            let s := internal.set_dirty true
                       (internal.set_buffer (resize 0 (internal.buffer s)) s) in
            Some (set_open_fds_ (<[fd:=s]> (open_fds_ fs)) fs, h, 0)
        end
      else if read_ fs then
        match internal.load_buffer h s with
        | None => None
        | Some (h, s, ret) =>
            if negb (ret =? 0)
            then Some (set_open_fds_ (<[fd:=s]> (open_fds_ fs)) fs, h, - ret)
            else
              let s := internal.set_dirty true
                         (internal.set_buffer
                            (resize offset (internal.buffer s)) s) in
              Some (set_open_fds_ (<[fd:=s]> (open_fds_ fs)) fs, h, 0)
        end
      else Some (fs, h, - EACCES)
  end.

Definition ftruncate (fs : t) (h : H) (offset : Z) (info : fuse_file_info.t)
    : option (t * H * Z) :=
  truncatefd fs h (fuse_file_info.fh info) offset.

(** [truncate] by path.  For a file that is not open and a positive offset
    a transient [internal] is built whose [buffer_set] is never assigned;
    [uninit] stands for the value that field happens to hold. *)
Definition truncate (fs : t) (h : H) (path : string) (offset : Z)
    (uninit : bool) : option (t * H * Z) :=
  if offset <? 0 then Some (fs, h, - EINVAL)
  else
    match open_paths_ fs !! path with
    | Some fd => truncatefd fs h fd offset
    | None =>
        if offset =? 0 then
          match sys_truncate h (relpath path) offset with
          | (h, Ok _) => Some (fs, h, 0)
          | (h, Err errno) => Some (fs, h, - errno)
          end
        else if read_ fs then
          let flags := O_RDWR in
          match sys_openat h (relpath path) flags None with
          | (h, Err errno) => Some (fs, h, - errno)
          | (h, Ok ret) =>
              let data := internal.new ret flags path 0 uninit in
              match internal.load_buffer h data with
              | None => None
              | Some (h, data, load_ret) =>
                  if negb (load_ret =? 0) then
                    (* the destructor closes the transient state *)
                    let '(h, _, _) := internal.close (recipients_ fs) h data in
                    Some (fs, h, - load_ret)
                  else if negb (internal.buffer_set data) then None
                  else
                    let data := internal.set_dirty true
                                  (internal.set_buffer
                                     (resize offset (internal.buffer data))
                                     data) in
                    let '(h, _, ret) := internal.close (recipients_ fs) h data in
                    Some (fs, h, if ret =? 0 then 0 else - ret)
              end
          end
        else Some (fs, h, - EACCES)
    end.

Definition release (fs : t) (h : H) (info : fuse_file_info.t)
    : option (t * H * Z) :=
  match open_fds_ fs !! fuse_file_info.fh info with
  | None => Some (fs, h, 0)
  | Some s =>
      let new_count := to_unsigned (internal.references s - 1) in
      let s := internal.set_references new_count s in
      if new_count =? 0 then
        let fs := set_open_paths_
                    (delete (internal.path s) (open_paths_ fs)) fs in
        (* [delete it->second]: the destructor closes the state *)
        let '(h, _, _) := internal.close (recipients_ fs) h s in
        let fs := set_open_fds_
                    (delete (fuse_file_info.fh info) (open_fds_ fs)) fs in
        Some (fs, h, 0)
      else
        Some (set_open_fds_
                (<[fuse_file_info.fh info:=s]> (open_fds_ fs)) fs, h, 0)
  end.

Definition rename (fs : t) (h : H) (oldpath newpath : string)
    : option (t * H * Z) :=
  match sys_rename h (relpath oldpath) (relpath newpath) with
  | (h, Err errno) => Some (fs, h, - errno)
  | (h, Ok _) =>
      match open_paths_ fs !! oldpath with
      | None => Some (fs, h, 0)
      | Some fd =>
          let paths := delete oldpath
                         (map_insert newpath fd (open_paths_ fs)) in
          match open_fds_ fs !! fd with
          | None => None
          | Some s =>
              let s := internal.set_path newpath s in
              Some (set_open_fds_ (<[fd:=s]> (open_fds_ fs))
                      (set_open_paths_ paths fs), h, 0)
          end
      end
  end.

(** [statfd]: [buf] tells whether the caller's [struct stat *] is non-null;
    on success the attributes written through it are returned. *)
Definition statfd (fs : t) (h : H) (fd : Z) (buf : bool)
    : option (t * H * Z * option stat) :=
  if negb buf then Some (fs, h, - EFAULT, None)
  else
    match open_fds_ fs !! fd with
    | None => Some (fs, h, - EBADF, None)
    | Some s =>
        match sys_fstat h (internal.fd s) with
        | Err errno => Some (fs, h, - errno, None)
        | Ok st =>
            let loaded :=
              if read_ fs then internal.load_buffer h s
              else Some (h, s, 0) in
            match loaded with
            | None => None
            | Some (h, s, lret) =>
                let fs := set_open_fds_ (<[fd:=s]> (open_fds_ fs)) fs in
                if negb (lret =? 0) then Some (fs, h, - lret, None)
                else if read_ fs && negb (internal.buffer_set s) then None
                else
                  let size := buf_size (internal.buffer s) in
                  let st :=
                    if internal.buffer_set s then mkStat (st_mode st) size
                    else if has_flag (internal.flags s) O_APPEND
                    then mkStat (st_mode st) (st_size st + size)
                    else st in
                  Some (fs, h, 0, Some st)
            end
        end
    end.

Definition fgetattr (fs : t) (h : H) (buf : bool) (info : fuse_file_info.t)
    : option (t * H * Z * option stat) :=
  statfd fs h (fuse_file_info.fh info) buf.

Definition S_ISDIR (mode : Z) : bool := Z.land mode S_IFMT =? S_IFDIR.

Definition getattr (fs : t) (h : H) (path : string) (buf : bool)
    : option (t * H * Z * option stat) :=
  match open_paths_ fs !! path with
  | Some fd => statfd fs h fd buf
  | None =>
      if negb buf then Some (fs, h, - EFAULT, None)
      else
        match sys_lstat h (relpath path) with
        | Err errno => Some (fs, h, - errno, None)
        | Ok s =>
            let s :=
              if negb (read_ fs) && negb (S_ISDIR (st_mode s)) then
                mkStat (Z.land (st_mode s)
                          (Z.lnot (Z.lor (Z.lor S_IRUSR S_IRGRP) S_IROTH)))
                       (st_size s)
              else s in
            Some (fs, h, 0, Some s)
        end
  end.

Definition link (oldpath newpath : string) : Z := - EPERM.

Definition access (fs : t) (h : H) (path : string) (mode : Z) : Z :=
  let ret := if has_flag mode R_OK && negb (read_ fs) then - EACCES else 0 in
  match sys_access h (relpath path) mode with
  | Ok _ => ret
  | Err errno => - errno
  end.

End with_host.

End asymmetricfs.

(** ** Callbacks as operations on a running mount *)

Inductive op : Type :=
| OpCreate (path : string) (mode : Z) (info : fuse_file_info.t)
| OpOpen (path : string) (info : fuse_file_info.t)
| OpRead (size offset : Z) (info : fuse_file_info.t)
| OpWrite (data : list byte) (offset : Z) (info : fuse_file_info.t)
| OpTruncate (path : string) (offset : Z) (uninit : bool)
| OpFtruncate (offset : Z) (info : fuse_file_info.t)
| OpRelease (info : fuse_file_info.t)
| OpRename (oldpath newpath : string)
| OpGetattr (path : string) (buf : bool)
| OpFgetattr (buf : bool) (info : fuse_file_info.t)
| OpAccess (path : string) (mode : Z)
| OpLink (oldpath newpath : string).

Inductive reply : Type :=
| RInt (ret : Z)
| RInfo (ret : Z) (info : fuse_file_info.t)
| RData (ret : Z) (bytes : list byte)
| RStat (ret : Z) (st : option stat).

Definition ret_of (r : reply) : Z :=
  match r with
  | RInt ret | RInfo ret _ | RData ret _ | RStat ret _ => ret
  end.

Section run.
Context {H : Type} `{Host H}.

Definition step (fs : asymmetricfs.t) (h : H) (o : op)
    : option (asymmetricfs.t * H * reply) :=
  match o with
  | OpCreate path mode info =>
      '(fs, h, ret, info) ← asymmetricfs.create fs h path mode info;
      Some (fs, h, RInfo ret info)
  | OpOpen path info =>
      '(fs, h, ret, info) ← asymmetricfs.open fs h path info;
      Some (fs, h, RInfo ret info)
  | OpRead size offset info =>
      '(fs, h, ret, bytes) ← asymmetricfs.read fs h size offset info;
      Some (fs, h, RData ret bytes)
  | OpWrite data offset info =>
      '(fs, h, ret) ← asymmetricfs.write fs h data offset info;
      Some (fs, h, RInt ret)
  | OpTruncate path offset uninit =>
      '(fs, h, ret) ← asymmetricfs.truncate fs h path offset uninit;
      Some (fs, h, RInt ret)
  | OpFtruncate offset info =>
      '(fs, h, ret) ← asymmetricfs.ftruncate fs h offset info;
      Some (fs, h, RInt ret)
  | OpRelease info =>
      '(fs, h, ret) ← asymmetricfs.release fs h info;
      Some (fs, h, RInt ret)
  | OpRename oldpath newpath =>
      '(fs, h, ret) ← asymmetricfs.rename fs h oldpath newpath;
      Some (fs, h, RInt ret)
  | OpGetattr path buf =>
      '(fs, h, ret, st) ← asymmetricfs.getattr fs h path buf;
      Some (fs, h, RStat ret st)
  | OpFgetattr buf info =>
      '(fs, h, ret, st) ← asymmetricfs.fgetattr fs h buf info;
      Some (fs, h, RStat ret st)
  | OpAccess path mode => Some (fs, h, RInt (asymmetricfs.access fs h path mode))
  | OpLink oldpath newpath => Some (fs, h, RInt (asymmetricfs.link oldpath newpath))
  end.

(** A sequence of callbacks, with the replies in order. *)
Fixpoint run (fs : asymmetricfs.t) (h : H) (ops : list op)
    : option (asymmetricfs.t * H * list reply) :=
  match ops with
  | [] => Some (fs, h, [])
  | o :: ops =>
      '(fs, h, r) ← step fs h o;
      '(fs, h, rs) ← run fs h ops;
      Some (fs, h, r :: rs)
  end.

End run.

(** ** A concrete host

    A single-user file store: directory entries, inodes holding a
    permission mode and the file bytes, and descriptors holding the open
    flags and a file offset.  The cipher is a toy: a block is the
    plaintext spelt in two letters per byte, followed by the armour
    trailer.  It is a model of the environment for running scenarios, not
    a part of the program. *)

Module SimpleHost.

Record inode : Type := mkInode { i_mode : Z; i_data : list byte }.
Record descr : Type := mkDescr { d_ino : Z; d_flags : Z; d_pos : Z }.

Record t : Type := mk {
  names : gmap string Z;
  inodes : gmap Z inode;
  fds : gmap Z descr;
  next_ino : Z;
  next_desc : Z
}.

Definition empty : t := mk ∅ ∅ ∅ 1 3.

Definition wants_read (flags : Z) : bool :=
  let acc := Z.land flags O_ACCMODE in (acc =? O_RDONLY) || (acc =? O_RDWR).
Definition wants_write (flags : Z) : bool :=
  let acc := Z.land flags O_ACCMODE in (acc =? O_WRONLY) || (acc =? O_RDWR).

Definition alloc (h : t) (ino flags : Z) : t * sysres Z :=
  (mk (names h) (inodes h) (<[next_desc h := mkDescr ino flags 0]> (fds h))
      (next_ino h) (next_desc h + 1),
   Ok (next_desc h)).

Definition set_data (h : t) (ino : Z) (data : list byte) : t :=
  mk (names h)
     (alter (fun nd => mkInode (i_mode nd) data) ino (inodes h))
     (fds h) (next_ino h) (next_desc h).

Definition set_pos (h : t) (fd pos : Z) : t :=
  mk (names h) (inodes h)
     (alter (fun d => mkDescr (d_ino d) (d_flags d) pos) fd (fds h))
     (next_ino h) (next_desc h).

Definition openat (h : t) (path : string) (flags : Z) (mode : option Z)
    : t * sysres Z :=
  match names h !! path with
  | Some ino =>
      if has_flag flags O_CREAT && has_flag flags O_EXCL then (h, Err EEXIST)
      else
        match inodes h !! ino with
        | None => (h, Err ENOENT)
        | Some nd =>
            if wants_read flags && negb (has_flag (i_mode nd) S_IRUSR)
            then (h, Err EACCES)
            else if wants_write flags && negb (has_flag (i_mode nd) S_IWUSR)
            then (h, Err EACCES)
            else
              let h := if has_flag flags O_TRUNC && wants_write flags
                       then set_data h ino [] else h in
              alloc h ino flags
        end
  | None =>
      if has_flag flags O_CREAT then
        let ino := next_ino h in
        let h := mk (<[path := ino]> (names h))
                    (<[ino := mkInode (default 0 mode) []]> (inodes h))
                    (fds h) (ino + 1) (next_desc h) in
        alloc h ino flags
      else (h, Err ENOENT)
  end.

Definition close (h : t) (fd : Z) : t * sysres unit :=
  match fds h !! fd with
  | None => (h, Err EBADF)
  | Some _ =>
      (mk (names h) (inodes h) (delete fd (fds h)) (next_ino h) (next_desc h),
       Ok tt)
  end.

Definition stat_of (nd : inode) : stat :=
  mkStat (Z.lor S_IFREG (i_mode nd)) (buf_size (i_data nd)).

Definition fstat (h : t) (fd : Z) : sysres stat :=
  match fds h !! fd with
  | None => Err EBADF
  | Some d =>
      match inodes h !! d_ino d with
      | None => Err EBADF
      | Some nd => Ok (stat_of nd)
      end
  end.

Definition lstat (h : t) (path : string) : sysres stat :=
  match names h !! path with
  | None => Err ENOENT
  | Some ino =>
      match inodes h !! ino with
      | None => Err ENOENT
      | Some nd => Ok (stat_of nd)
      end
  end.

Definition ftruncate (h : t) (fd len : Z) : t * sysres unit :=
  match fds h !! fd with
  | None => (h, Err EBADF)
  | Some d =>
      if negb (wants_write (d_flags d)) then (h, Err EINVAL)
      else
        match inodes h !! d_ino d with
        | None => (h, Err EBADF)
        | Some nd => (set_data h (d_ino d) (resize len (i_data nd)), Ok tt)
        end
  end.

Definition truncate (h : t) (path : string) (len : Z) : t * sysres unit :=
  match names h !! path with
  | None => (h, Err ENOENT)
  | Some ino =>
      match inodes h !! ino with
      | None => (h, Err ENOENT)
      | Some nd =>
          if negb (has_flag (i_mode nd) S_IWUSR) then (h, Err EACCES)
          else (set_data h ino (resize len (i_data nd)), Ok tt)
      end
  end.

Definition rename (h : t) (oldpath newpath : string) : t * sysres unit :=
  match names h !! oldpath with
  | None => (h, Err ENOENT)
  | Some ino =>
      (mk (<[newpath := ino]> (delete oldpath (names h))) (inodes h) (fds h)
          (next_ino h) (next_desc h),
       Ok tt)
  end.

Definition access (h : t) (path : string) (mode : Z) : sysres unit :=
  match lstat h path with
  | Err errno => Err errno
  | Ok st =>
      if has_flag mode R_OK && negb (has_flag (st_mode st) S_IRUSR)
      then Err EACCES
      else if has_flag mode W_OK && negb (has_flag (st_mode st) S_IWUSR)
      then Err EACCES
      else if has_flag mode X_OK && negb (has_flag (st_mode st) 64)
      then Err EACCES
      else Ok tt
  end.

Definition mmap (h : t) (fd len : Z) : sysres (list byte) :=
  match fds h !! fd with
  | None => Err EBADF
  | Some d =>
      if negb (wants_read (d_flags d)) then Err EACCES
      else
        match inodes h !! d_ino d with
        | None => Err EBADF
        | Some nd => Ok (resize len (i_data nd))
        end
  end.

(** The toy cipher. *)
Definition letter (n : N) : byte := default x00 (Byte.of_N (97 + n)).

Definition armor (plain : list byte) : list byte :=
  flat_map (fun b => [letter (Byte.to_N b / 16); letter (Byte.to_N b mod 16)])
    plain ++ terminator.

Fixpoint unletters (body : list byte) : option (list byte) :=
  match body with
  | [] => Some []
  | hi :: lo :: body =>
      let n := ((Byte.to_N hi - 97) * 16 + (Byte.to_N lo - 97))%N in
      if bool_decide (letter (n / 16) = hi ∧ letter (n mod 16) = lo) then
        b ← Byte.of_N n; rest ← unletters body; Some (b :: rest)
      else None
  | _ => None
  end.

Definition dearmor (block : list byte) : option (list byte) :=
  let n := (length block - length terminator)%nat in
  if bool_decide (drop n block = terminator) then unletters (take n block)
  else None.

Definition gpg_encrypt (h : t) (recipients : list gpg_recipient) (fd : Z)
    (plain : list byte) : t * Z :=
  match recipients, fds h !! fd with
  | _ :: _, Some d =>
      match inodes h !! d_ino d with
      | Some nd =>
          if wants_write (d_flags d) then
            let pos := if has_flag (d_flags d) O_APPEND
                       then buf_size (i_data nd) else d_pos d in
            let out := armor plain in
            let len := Z.max (buf_size (i_data nd)) (pos + buf_size out) in
            let data := memcpy_at (resize len (i_data nd)) pos out in
            (set_pos (set_data h (d_ino d) data) fd (pos + buf_size out), 0)
          else (h, 2)
      | None => (h, 2)
      end
  | _, _ => (h, 2)
  end.

Definition decrypt_bytes (block : list byte) : gpg_output :=
  match dearmor block with
  | Some plain => mkOutput plain 0 0
  | None => mkOutput [] 0 2
  end.

Definition gpg_decrypt (h : t) (input : gpg_stdin) : t * gpg_output :=
  match input with
  | StdinBytes block => (h, decrypt_bytes block)
  | StdinFd fd =>
      match fds h !! fd with
      | None => (h, mkOutput [] 0 2)
      | Some d =>
          match inodes h !! d_ino d with
          | None => (h, mkOutput [] 0 2)
          | Some nd =>
              if wants_read (d_flags d) then
                (set_pos h fd (Z.max (d_pos d) (buf_size (i_data nd))),
                 decrypt_bytes (drop (Z.to_nat (d_pos d)) (i_data nd)))
              else (h, mkOutput [] 0 2)
          end
      end
  end.

#[global] Instance host : Host t := {|
  sys_openat := openat;
  sys_close := close;
  sys_fstat := fstat;
  sys_lstat := lstat;
  sys_ftruncate := ftruncate;
  sys_truncate := truncate;
  sys_rename := rename;
  sys_access := access;
  sys_mmap := mmap;
  sys_gpg_encrypt := gpg_encrypt;
  sys_gpg_decrypt := gpg_decrypt
|}.

End SimpleHost.

(** ** Scenarios of the test suite, run on [SimpleHost] *)

Definition bytes (s : string) : list byte := list_byte_of_string s.

Definition rw_mount : asymmetricfs.t :=
  asymmetricfs.mk true 0 ∅ ∅ ["0xTESTKEY"%string].

Definition wo_mount : asymmetricfs.t :=
  asymmetricfs.mk false 0 ∅ ∅ ["0xTESTKEY"%string].

Definition info0 (flags : Z) : fuse_file_info.t := fuse_file_info.mk flags 0.
Definition handle (fh : Z) : fuse_file_info.t := fuse_file_info.mk 0 fh.

Definition replies (r : option (asymmetricfs.t * SimpleHost.t * list reply))
    : option (list reply) :=
  '(_, _, rs) ← r; Some rs.

(** ** Directory listings: [asymmetricfs::readdir]

    The callback reads the directory stream the handle carries with
    [::readdir] until it returns NULL, and offers the entries to FUSE's
    [filler].  The stream is the list of the entries still to come and the
    way it ends: at the end of the directory [::readdir] leaves [errno]
    alone, on a failure it sets it.  [errno] is threaded through the loop,
    as the filler is foreign code that may change it. *)

Module directory.

Definition DT_UNKNOWN : Z := 0.
Definition DT_FIFO : Z := 1.
Definition DT_CHR : Z := 2.
Definition DT_DIR : Z := 4.
Definition DT_BLK : Z := 6.
Definition DT_REG : Z := 8.
Definition DT_LNK : Z := 10.
Definition DT_SOCK : Z := 12.
Definition DT_WHT : Z := 14.

Definition S_IFDIR : Z := 16384.
Definition S_IFREG : Z := 32768.
Definition S_IFLNK : Z := 40960.

(** [DTTOIF(dirtype)] is [(dirtype) << 12]. *)
Definition DTTOIF (dirtype : Z) : Z := Z.shiftl dirtype 12.

Record dirent := mkDirent {
  d_ino : Z;
  d_type : Z;
  d_name : string
}.

(** The [struct stat] handed to the filler: cleared by [memset], then
    [st_ino] and [st_mode] are set. *)
Record stat := mkStat {
  st_ino : Z;
  st_mode : Z
}.

(** The stream behind a [DIR *]: [failure] is [None] when the stream ends
    with the directory, and the errno of the failing [::readdir]
    otherwise. *)
Record DIR := mkDIR {
  pending : list dirent;
  failure : option Z
}.

(** The [switch] on [d_type]: the cases that do not set [skip]. *)
Definition listed (d_type : Z) : bool :=
  (d_type =? DT_LNK) || (d_type =? DT_REG) || (d_type =? DT_DIR)
  || (d_type =? DT_UNKNOWN).

Section readdir.
Context {B : Type}.

(** [filler buffer errno name s] gives the buffer and [errno] after the
    call and the value returned. *)
Definition fuse_fill_dir_t : Type := B -> Z -> string -> stat -> B * Z * Z.

Variable filler : fuse_fill_dir_t.

(** The [while] loop, by recursion on the entries still to come. *)
Fixpoint readdir_loop (entries : list dirent) (failure : option Z)
    (buffer : B) (errno : Z) : DIR * B * Z :=
  match entries with
  | [] =>
      let errno := match failure with
                   | None => errno
                   | Some e => e
                   end in
      (mkDIR [] failure, buffer, - errno)
  | result :: entries =>
      if listed (d_type result) then
        let s := mkStat (d_ino result)
                   (DTTOIF (to_unsigned (d_type result))) in
        let '(buffer, errno, ret) := filler buffer errno (d_name result) s in
        if ret =? 0 then readdir_loop entries failure buffer errno
        else (mkDIR entries failure, buffer, 0)
      else readdir_loop entries failure buffer errno
  end.

(** [readdir]: [errno = 0], then the loop.  The result is the stream as it
    is left, the filled buffer and the value returned. *)
Definition readdir (dir : DIR) (buffer : B) : DIR * B * Z :=
  readdir_loop (pending dir) (failure dir) buffer 0.

End readdir.

(** A filler that takes every entry: it appends the name and the mode to
    the buffer, returns 0 and leaves [errno] alone. *)
Definition collect : @fuse_fill_dir_t (list (string * Z)) :=
  fun buffer errno name s => (buffer ++ [(name, st_mode s)], errno, 0).

(** A filler with room for [capacity] entries: it returns 1 on a full
    buffer. *)
Definition bounded (capacity : nat) : @fuse_fill_dir_t (list (string * Z)) :=
  fun buffer errno name s =>
    if (length buffer <? capacity)%nat
    then (buffer ++ [(name, st_mode s)], errno, 0)
    else (buffer, errno, 1).

End directory.

(** ** Symbolic links: [asymmetricfs::readlink]

    [sys_readlink h path] is the target of the link as the host stores it;
    [::readlink(path, buffer, len)] places at most [len] bytes of it in the
    buffer, without a terminator, and returns their number.  [buffer] is
    the caller's memory of [size] bytes; [None] is a failed assert or a
    store outside the buffer. *)

Section readlink.
Context {H : Type}.
Variable sys_readlink : H -> string -> sysres (list byte).

Definition readlink (h : H) (path : string) (buffer : list byte) (size : Z)
    : option (list byte * Z) :=
  let len := if 0 <? size then size - 1 else 0 in
  match sys_readlink h (asymmetricfs.relpath path) with
  | Err errno => Some (buffer, - errno)
  | Ok target =>
      let placed := take (Z.to_nat len) target in
      let ret := buf_size placed in
      if ret <=? INT_MAX then
        if ret <? buf_size buffer
        then Some (<[Z.to_nat ret := x00]> (memcpy_at buffer 0 placed), 0)
        else None
      else None
  end.

End readlink.

(** ** The key helper of the test suite: [gnupg_key]

    After generating a key the constructor reads the output of
    [gpg --fingerprint] and takes the key's short id from it.  [key_size]
    is the key length printed by [lexical_cast], [buffer] the output cut to
    the bytes read; [None] is the [gnupg_generation_error] thrown. *)

Module gnupg_key.

Definition key_token (key_size : string) : string :=
  ("pub   " ++ key_size ++ "R/")%string.

Definition thumbprint (key_size buffer : string) : option string :=
  let key_token := key_token key_size in
  match String.index 0 key_token buffer with
  | None => None
  | Some index =>
      if (String.length buffer <? index + String.length key_token + 8)%nat
      then None
      else Some (String.substring (index + String.length key_token) 8 buffer)
  end.

End gnupg_key.

(** ** Vocabulary of the properties *)

(** What [load_buffer] leaves alone. *)
Definition same_file (s s' : internal.t) : Prop :=
  internal.fd s' = internal.fd s
  /\ internal.flags s' = internal.flags s
  /\ internal.references s' = internal.references s
  /\ internal.path s' = internal.path s
  /\ internal.open_ s' = internal.open_ s.

(** Every state in the handle table is open and has an id below the
    counter, and every entry of the path table leads to a state that
    carries that path. *)
Record table_inv (fs : asymmetricfs.t) : Prop := {
  states_open : forall id s,
    asymmetricfs.open_fds_ fs !! id = Some s -> internal.open_ s = true;
  ids_below_next : forall id s,
    asymmetricfs.open_fds_ fs !! id = Some s -> id < asymmetricfs.next_ fs;
  paths_lead_to_states : forall p id,
    asymmetricfs.open_paths_ fs !! p = Some id ->
    exists s, asymmetricfs.open_fds_ fs !! id = Some s /\ internal.path s = p
}.

(** [dirty ⇒ buffer_set], for one state and for every state of a mount. *)
Definition known_if_dirty (s : internal.t) : Prop :=
  internal.dirty s = true -> internal.buffer_set s = true.

Definition dirty_inv (fs : asymmetricfs.t) : Prop :=
  map_Forall (fun _ s => known_if_dirty s) (asymmetricfs.open_fds_ fs).

Definition known (fs : asymmetricfs.t) (id : Z) : bool :=
  match asymmetricfs.open_fds_ fs !! id with
  | Some s => internal.buffer_set s
  | None => true
  end.

(** The calls that set [dirty] without looking at [buffer_set] are [write]
    and the truncations to length zero; they are guarded when the state
    they address has a known buffer. *)
Definition guarded (fs : asymmetricfs.t) (o : op) : bool :=
  match o with
  | OpWrite _ _ info => known fs (fuse_file_info.fh info)
  | OpFtruncate offset info =>
      negb (offset =? 0) || known fs (fuse_file_info.fh info)
  | OpTruncate path offset _ =>
      negb (offset =? 0)
      || match asymmetricfs.open_paths_ fs !! path with
         | Some id => known fs id
         | None => true
         end
  | _ => true
  end.

(** The id a callback assigned, read off the call and its reply: [create]
    assigns one when it succeeds, [open] when it succeeds on a path that
    had no entry (on a path that has one it hands back the entry's id). *)
Definition assigns (fs : asymmetricfs.t) (o : op) (r : reply) : option Z :=
  match o, r with
  | OpCreate _ _ _, RInfo 0 info => Some (fuse_file_info.fh info)
  | OpOpen path _, RInfo 0 info =>
      match asymmetricfs.open_paths_ fs !! path with
      | None => Some (fuse_file_info.fh info)
      | Some _ => None
      end
  | _, _ => None
  end.

Section vocabulary.
Context {H : Type} `{Host H}.

(** What [internal::close] does to the host for a state that is still
    open: the cipher child runs exactly when the state is dirty, and the
    descriptor is closed in either case. *)
Definition host_after_close (recipients : list gpg_recipient) (h : H)
    (s : internal.t) : H :=
  if internal.dirty s then
    (sys_close
       (sys_gpg_encrypt h recipients (internal.fd s) (internal.buffer s)).1
       (internal.fd s)).1
  else (sys_close h (internal.fd s)).1.

(** The ids assigned in the course of a run, oldest first; the run ends
    with its last callback or with the first one that aborts. *)
Fixpoint assigned_ids (fs : asymmetricfs.t) (h : H) (ops : list op)
    : list Z :=
  match ops with
  | [] => []
  | o :: ops =>
      match step fs h o with
      | Some (fs', h', r) =>
          option_list (assigns fs o r) ++ assigned_ids fs' h' ops
      | None => []
      end
  end.

(** The mounts a run passes through, one after each callback that
    returned. *)
Fixpoint mounts_after (fs : asymmetricfs.t) (h : H) (ops : list op)
    : list asymmetricfs.t :=
  match ops with
  | [] => []
  | o :: ops =>
      match step fs h o with
      | Some (fs', h', _) => fs' :: mounts_after fs' h' ops
      | None => []
      end
  end.

(** Every call of a run is guarded in the mount it meets. *)
Fixpoint guarded_run (fs : asymmetricfs.t) (h : H) (ops : list op) : bool :=
  match ops with
  | [] => true
  | o :: ops =>
      guarded fs o
      && match step fs h o with
         | Some (fs', h', _) => guarded_run fs' h' ops
         | None => true
         end
  end.

End vocabulary.

(** Projection of the value [open] and [create] return. *)
Definition open_ret {H : Type}
    (r : option (asymmetricfs.t * H * Z * fuse_file_info.t)) : option Z :=
  '(_, _, ret, _) ← r; Some ret.

(** The terminator stands at position [p] of the mapping. *)
Definition terminator_at (underlying : list byte) (p : Z) : Prop :=
  take (Z.to_nat terminator_size) (drop (Z.to_nat p) underlying) = terminator.


(** [token] occurs in [buffer] at [index] and nowhere before. *)
Definition first_at (token buffer : string) (index : nat) : Prop :=
  String.substring index (String.length token) buffer = token
  /\ forall p, (p < index)%nat ->
       String.substring p (String.length token) buffer <> token.

(** The host [I] with [decrypt] in place of its decrypting child. *)
Definition with_decrypt {H : Type} (I : Host H)
    (decrypt : H -> gpg_stdin -> H * gpg_output) : Host H := {|
  sys_openat := @sys_openat H I;
  sys_close := @sys_close H I;
  sys_fstat := @sys_fstat H I;
  sys_lstat := @sys_lstat H I;
  sys_ftruncate := @sys_ftruncate H I;
  sys_truncate := @sys_truncate H I;
  sys_rename := @sys_rename H I;
  sys_access := @sys_access H I;
  sys_mmap := @sys_mmap H I;
  sys_gpg_encrypt := @sys_gpg_encrypt H I;
  sys_gpg_decrypt := decrypt
|}.

(** ** Mounts and hosts used in the examples *)

(** A mount with one open file, handle 0, whose buffer is known. *)
Definition one_file (read : bool) (buf : list byte) : asymmetricfs.t :=
  asymmetricfs.mk read 1 {["/test"%string := 0]}
    {[0 := internal.mk 3 (Z.lor O_CREAT O_RDWR) 1 "/test" true false buf true]}
    ["0xTESTKEY"%string].

(** A host holding one readable, writable file ["/x"] with one encrypted
    block. *)
Definition host_x (plain : list byte) : SimpleHost.t :=
  SimpleHost.mk {["./x"%string := 1]}
    {[1 := SimpleHost.mkInode 420 (SimpleHost.armor plain)]} ∅ 2 3.

(** A file is created, written, read back, cut to three bytes, renamed,
    inspected and released: every write meets a known buffer. *)
Definition guarded_ops : list op :=
  [OpCreate "/test" 384 (info0 (Z.lor O_CREAT O_RDWR));
   OpWrite (bytes "abcdefg") 0 (handle 0);
   OpRead 65536 0 (handle 0);
   OpFtruncate 3 (handle 0);
   OpRename "/test" "/moved";
   OpGetattr "/moved" true;
   OpOpen "/moved" (info0 O_RDONLY);
   OpRelease (handle 0)].

(** * Properties *)

(** ** Integers and buffers *)

Lemma to_int_id (z : Z) : - 2 ^ 31 <= z < 2 ^ 31 -> to_int z = z.
Proof.
  intros Hz. unfold to_int.
  rewrite Z.mod_small by lia. lia.
Qed.

Lemma to_size_t_id (z : Z) : 0 <= z < 2 ^ 64 -> to_size_t z = z.
Proof. intros Hz. unfold to_size_t. now rewrite Z.mod_small. Qed.

Lemma to_unsigned_id (z : Z) : 0 <= z < 2 ^ 32 -> to_unsigned z = z.
Proof. intros Hz. unfold to_unsigned. now rewrite Z.mod_small. Qed.

Lemma buf_size_nonneg (b : list byte) : 0 <= buf_size b.
Proof. unfold buf_size. lia. Qed.

Lemma buf_size_zero (b : list byte) : buf_size b = 0 <-> b = [].
Proof.
  unfold buf_size. destruct b; simpl; split; intros; try done; lia.
Qed.

Lemma buf_size_resize (n : Z) (b : list byte) :
  0 <= n -> buf_size (resize n b) = n.
Proof.
  intros Hn. unfold buf_size, resize.
  rewrite length_app, length_take, length_replicate. lia.
Qed.

Lemma resize_lookup (n : Z) (b : list byte) (i : nat) :
  resize n b !! i =
    if decide (i < Z.to_nat n)%nat
    then Some (default x00 (b !! i)) else None.
Proof.
  unfold resize. case_decide as Hi.
  - destruct (decide (i < length b)%nat) as [Hb|Hb].
    + rewrite lookup_app_l by (rewrite length_take; lia).
      rewrite lookup_take_lt by lia.
      destruct (lookup_lt_is_Some_2 b i Hb) as [x ->]. done.
    + rewrite lookup_app_r by (rewrite length_take; lia).
      rewrite length_take.
      rewrite (lookup_ge_None_2 b i) by lia. simpl.
      apply lookup_replicate_2. lia.
  - apply lookup_ge_None_2.
    rewrite length_app, length_take, length_replicate. lia.
Qed.

Lemma resize_zero (b : list byte) : resize 0 b = [].
Proof. now destruct b. Qed.

Lemma resize_same (b : list byte) : resize (buf_size b) b = b.
Proof.
  unfold resize, buf_size. rewrite Nat2Z.id, firstn_all, Nat.sub_diag.
  simpl. apply app_nil_r.
Qed.

Section memcpy_at.
Variables (b src : list byte) (offset : Z).
Hypothesis Hoff : 0 <= offset.
Hypothesis Hfit : offset + buf_size src <= buf_size b.

Lemma buf_size_memcpy_at : buf_size (memcpy_at b offset src) = buf_size b.
Proof.
  unfold buf_size in *. unfold memcpy_at.
  rewrite !length_app, length_take, length_drop. lia.
Qed.

Lemma copy_out_memcpy_at : copy_out (memcpy_at b offset src) offset (buf_size src) = src.
Proof.
  unfold buf_size in *. unfold copy_out, memcpy_at.
  rewrite drop_app_length' by (rewrite length_take; lia).
  rewrite Nat2Z.id. now rewrite take_app_length.
Qed.

Lemma memcpy_at_lookup_outside (i : nat) :
  (i < Z.to_nat offset \/ Z.to_nat offset + length src <= i)%nat ->
  memcpy_at b offset src !! i = b !! i.
Proof.
  unfold buf_size in *. unfold memcpy_at. intros [Hi|Hi].
  - rewrite lookup_app_l by (rewrite length_take; lia).
    now rewrite lookup_take_lt.
  - rewrite lookup_app_r by (rewrite length_take; lia).
    rewrite lookup_app_r by (rewrite length_take; lia).
    rewrite lookup_drop, length_take. f_equal. lia.
Qed.

End memcpy_at.

(** ** [load_buffer]: the loops end *)

Lemma scan_terminator_bounds (fuel : nat) (underlying : list byte) (limit : Z) :
  forall start : Z,
    let r := internal.scan_terminator fuel underlying limit start in
    start <= r /\ (r <= limit + terminator_size \/ r = start).
Proof.
  induction fuel as [|fuel IH]; intros start; simpl; [lia|].
  destruct (Z.leb_spec start limit); [|lia].
  destruct (bytes_eqb _ _).
  - unfold terminator_size. lia.
  - specialize (IH (start + 1)). simpl in IH. unfold terminator_size in *. lia.
Qed.

Lemma find_terminator_bounds (underlying : list byte) (fd_size offset : Z) :
  offset < fd_size ->
  match internal.find_terminator underlying fd_size offset with
  | Some new_offset => offset <= new_offset <= fd_size
  | None => fd_size < terminator_size
  end.
Proof.
  intros Hoff. unfold internal.find_terminator.
  destruct (Z.ltb_spec fd_size terminator_size); [done|].
  pose proof (scan_terminator_bounds
                (Z.to_nat (fd_size - terminator_size - offset + 1)) underlying
                (fd_size - terminator_size) offset) as Hscan.
  simpl in Hscan. lia.
Qed.

Section load_blocks.
Context {H : Type} `{Host H}.
Variables (underlying : list byte) (fd_size : Z).

(** Fuel beyond the bytes that remain is never used. *)
Lemma load_blocks_fuel (fuel : nat) :
  forall (extra : nat) (h : H) (s : internal.t) (ret offset : Z),
    (Z.to_nat (fd_size - offset) <= fuel)%nat ->
    internal.load_blocks (fuel + extra) underlying fd_size h s ret offset
    = internal.load_blocks fuel underlying fd_size h s ret offset.
Proof.
  induction fuel as [|fuel IH]; intros extra h s ret offset Hfuel.
  - destruct extra; simpl; destruct (Z.ltb_spec offset fd_size); done || lia.
  - simpl. destruct (Z.ltb_spec offset fd_size) as [Hlt|]; [|done].
    pose proof (find_terminator_bounds underlying fd_size offset Hlt) as Hb.
    destruct (internal.find_terminator underlying fd_size offset)
      as [new_offset|]; [|done].
    destruct (negb (_ && _)); [done|].
    destruct ((offset =? 0) && (new_offset =? fd_size)) eqn:Hsingle; simpl.
    + apply andb_true_iff in Hsingle as [_ Hend%Z.eqb_eq]. subst new_offset.
      destruct (sys_gpg_decrypt h _) as [h1 o].
      destruct (internal.communicate _ _ _) as [buf1 ret1].
      destruct (negb _); [done|]. apply IH. lia.
    + destruct (Z.eqb_spec (new_offset - offset) 0); [done|].
      destruct (sys_gpg_decrypt h _) as [h1 o].
      destruct (internal.communicate _ _ _) as [buf1 ret1].
      destruct (negb _); [done|]. apply IH. lia.
Qed.

(** On a mapping that is at least as long as the terminator the loop
    returns: neither of its two asserts fails. *)
Lemma load_blocks_total (fuel : nat) :
  forall (h : H) (s : internal.t) (ret offset : Z),
    terminator_size <= fd_size ->
    (Z.to_nat (fd_size - offset) <= fuel)%nat ->
    is_Some (internal.load_blocks fuel underlying fd_size h s ret offset).
Proof.
  induction fuel as [|fuel IH]; intros h s ret offset Hsize Hfuel.
  - simpl. destruct (Z.ltb_spec offset fd_size); [lia|done].
  - simpl. destruct (Z.ltb_spec offset fd_size) as [Hlt|]; [|done].
    pose proof (find_terminator_bounds underlying fd_size offset Hlt) as Hb.
    destruct (internal.find_terminator underlying fd_size offset)
      as [new_offset|]; [|lia].
    destruct (Z.leb_spec offset new_offset); [|lia].
    destruct (Z.leb_spec new_offset fd_size); [|lia]. simpl.
    destruct ((offset =? 0) && (new_offset =? fd_size)) eqn:Hsingle; simpl.
    + apply andb_true_iff in Hsingle as [_ Hend%Z.eqb_eq]. subst new_offset.
      destruct (sys_gpg_decrypt h _) as [h1 o].
      destruct (internal.communicate _ _ _) as [buf1 ret1].
      destruct (negb _); [done|]. apply IH; lia.
    + destruct (Z.eqb_spec (new_offset - offset) 0); [done|].
      destruct (sys_gpg_decrypt h _) as [h1 o].
      destruct (internal.communicate _ _ _) as [buf1 ret1].
      destruct (negb _); [done|]. apply IH; lia.
Qed.

End load_blocks.

(** [load_buffer] returns unless it is called on a closed state or the
    backing file is not empty yet shorter than the terminator. *)
Lemma load_buffer_abort {H : Type} `{Host H} (h : H) (s : internal.t) :
  internal.load_buffer h s = None ->
  internal.buffer_set s = false
  /\ (internal.open_ s = false
      \/ exists fd_stat,
           sys_fstat h (internal.fd s) = Ok fd_stat
           /\ 0 < st_size fd_stat < terminator_size).
Proof.
  unfold internal.load_buffer. intros Hload.
  destruct (internal.buffer_set s); [done|]. split; [done|].
  destruct (internal.open_ s); [right|now left]. simpl in Hload.
  destruct (sys_fstat h (internal.fd s)) as [fd_stat|]; [|done].
  exists fd_stat. split; [done|].
  destruct (Z.leb_spec (st_size fd_stat) 0); [done|].
  destruct (sys_mmap h (internal.fd s) (st_size fd_stat)) as [underlying|];
    [|done].
  destruct (Z.le_gt_cases terminator_size (st_size fd_stat)) as [Hlong|]; [|lia].
  destruct (load_blocks_total underlying (st_size fd_stat) (Z.to_nat (st_size fd_stat))
              h (internal.set_buffer_set true
                   (internal.set_buffer [] (internal.set_dirty false s)))
              0 0 Hlong) as [r Hr]; [lia|].
  rewrite Hr in Hload. done.
Qed.

(** ** The tables stay consistent *)

Lemma table_inv_init : table_inv asymmetricfs.init.
Proof. split; simpl; intros ? ? Hlookup; now rewrite lookup_empty in Hlookup. Qed.

Section table_inv.
Context {H : Type} `{Host H}.

Lemma load_blocks_same_file (fuel : nat) (underlying : list byte) (fd_size : Z) :
  forall (h : H) s ret offset h' s' ret',
    internal.load_blocks fuel underlying fd_size h s ret offset
    = Some (h', s', ret') ->
    same_file s s'.
Proof.
  induction fuel as [|fuel IH]; simpl; intros h s ret offset h' s' ret' Hload.
  - destruct (offset <? fd_size); now simplify_eq.
  - destruct (offset <? fd_size); [|now simplify_eq].
    destruct (internal.find_terminator _ _ _) as [new_offset|]; [|done].
    destruct (negb (_ && _)); [done|].
    destruct (negb _ && _); [now simplify_eq|].
    destruct (sys_gpg_decrypt h _) as [h1 o].
    destruct (internal.communicate _ _ _) as [buf1 ret1].
    destruct (negb _); [now simplify_eq|].
    now apply IH in Hload.
Qed.

Lemma load_buffer_same_file (h : H) (s : internal.t) h' s' ret :
  internal.load_buffer h s = Some (h', s', ret) -> same_file s s'.
Proof.
  unfold internal.load_buffer. intros Hload.
  repeat case_match; simplify_eq; try done.
  now apply load_blocks_same_file in Hload.
Qed.

(** Replacing a state by one for the same file keeps the tables
    consistent. *)
Lemma table_inv_store (fs : asymmetricfs.t) (id : Z) (s s' : internal.t) :
  table_inv fs ->
  asymmetricfs.open_fds_ fs !! id = Some s ->
  internal.path s' = internal.path s ->
  internal.open_ s' = internal.open_ s ->
  table_inv (asymmetricfs.set_open_fds_
               (<[id:=s']> (asymmetricfs.open_fds_ fs)) fs).
Proof.
  intros [Hopen Hnext Hpaths] Hs Hpath Hstate. split; simpl.
  - intros id0 s0. rewrite lookup_insert. case_decide; intros; simplify_eq.
    + rewrite Hstate. eauto.
    + eauto.
  - intros id0 s0. rewrite lookup_insert. case_decide; intros; simplify_eq;
      eauto.
  - intros p id0 Hp. destruct (Hpaths p id0 Hp) as (s0 & Hs0 & Hp0).
    rewrite lookup_insert. case_decide; simplify_eq; eauto.
Qed.

Lemma table_inv_register (fs : asymmetricfs.t) (path : string)
    (data : internal.t) :
  table_inv fs ->
  internal.open_ data = true -> internal.path data = path ->
  table_inv (asymmetricfs.register fs path data).2.
Proof.
  intros [Hopen Hnext Hpaths] Hdata Hpath.
  assert (Hfresh : asymmetricfs.open_fds_ fs !! asymmetricfs.next_ fs = None).
  { destruct (asymmetricfs.open_fds_ fs !! asymmetricfs.next_ fs) eqn:Hs;
      [|done]. apply Hnext in Hs. lia. }
  unfold asymmetricfs.register, asymmetricfs.map_insert. simpl.
  rewrite Hfresh. split; simpl.
  - intros id s. rewrite lookup_insert. case_decide; intros; simplify_eq;
      eauto.
  - intros id s. rewrite lookup_insert. case_decide; intros; simplify_eq;
      [lia|]. assert (id < asymmetricfs.next_ fs) by eauto. lia.
  - intros p id Hp.
    destruct (asymmetricfs.open_paths_ fs !! path) eqn:Hold.
    + destruct (Hpaths p id Hp) as (s0 & Hs0 & Hp0).
      exists s0. rewrite lookup_insert_ne; [done|].
      apply Hnext in Hs0. lia.
    + rewrite lookup_insert in Hp. case_decide; simplify_eq.
      * exists data. now rewrite lookup_insert_eq.
      * destruct (Hpaths p id Hp) as (s0 & Hs0 & Hp0).
        exists s0. rewrite lookup_insert_ne; [done|].
        apply Hnext in Hs0. lia.
Qed.

Ltac registered_table :=
  match goal with
  | Hreg : asymmetricfs.register ?fs ?p ?d = (_, ?fs') |- table_inv ?fs' =>
      replace fs' with (asymmetricfs.register fs p d).2 by (now rewrite Hreg);
      apply table_inv_register; [assumption | done | done]
  end.

Lemma create_table_inv fs h path mode info fs' h' ret info' :
  asymmetricfs.create fs h path mode info = Some (fs', h', ret, info') ->
  table_inv fs -> table_inv fs'.
Proof.
  unfold asymmetricfs.create. intros Hc Hfs.
  repeat case_match; simplify_eq; try done; registered_table.
Qed.

Lemma open_table_inv fs h path info fs' h' ret info' :
  asymmetricfs.open fs h path info = Some (fs', h', ret, info') ->
  table_inv fs -> table_inv fs'.
Proof.
  unfold asymmetricfs.open. intros Ho Hfs.
  destruct (asymmetricfs.open_paths_ fs !! path) as [id|].
  - destruct (asymmetricfs.open_fds_ fs !! id) as [s|] eqn:Hs; [|done].
    simplify_eq. now apply (table_inv_store fs id s).
  - repeat case_match; simplify_eq; try done; registered_table.
Qed.

(** On consistent tables the assert of [open] holds: an [open] of a path
    that has an entry returns. *)
Lemma open_entry_returns fs (h : H) path info id :
  table_inv fs ->
  asymmetricfs.open_paths_ fs !! path = Some id ->
  is_Some (asymmetricfs.open fs h path info).
Proof.
  intros Hfs Hpath. unfold asymmetricfs.open. rewrite Hpath.
  destruct (paths_lead_to_states fs Hfs path id Hpath) as (s & -> & _).
  done.
Qed.

Lemma read_table_inv fs h size offset info fs' h' ret out :
  asymmetricfs.read fs h size offset info = Some (fs', h', ret, out) ->
  table_inv fs -> table_inv fs'.
Proof.
  unfold asymmetricfs.read. intros Hr Hfs.
  destruct (asymmetricfs.open_fds_ fs !! fuse_file_info.fh info) as [s|] eqn:Hs;
    [|now simplify_eq].
  destruct (offset <? 0); [now simplify_eq|].
  destruct (negb (asymmetricfs.read_ fs)).
  { repeat case_match; now simplify_eq. }
  destruct (internal.load_buffer h s) as [[[h1 s1] ret1]|] eqn:Hload; [|done].
  apply load_buffer_same_file in Hload as (_ & _ & _ & Hpath & Hopen).
  repeat case_match; simplify_eq; now apply (table_inv_store fs _ s).
Qed.

Lemma write_table_inv fs (h : H) data offset info fs' h' ret :
  asymmetricfs.write fs h data offset info = Some (fs', h', ret) ->
  table_inv fs -> table_inv fs'.
Proof.
  unfold asymmetricfs.write. intros Hw Hfs.
  destruct (asymmetricfs.open_fds_ fs !! fuse_file_info.fh info) as [s|] eqn:Hs;
    [|now simplify_eq].
  repeat case_match; simplify_eq; try done.
  now apply (table_inv_store fs _ s).
Qed.

Lemma truncatefd_table_inv fs h fd offset fs' h' ret :
  asymmetricfs.truncatefd fs h fd offset = Some (fs', h', ret) ->
  table_inv fs -> table_inv fs'.
Proof.
  unfold asymmetricfs.truncatefd. intros Ht Hfs.
  destruct (asymmetricfs.open_fds_ fs !! fd) as [s|] eqn:Hs;
    [|now simplify_eq].
  destruct (offset <? 0); [now simplify_eq|].
  destruct (offset =? 0).
  { repeat case_match; simplify_eq; try done.
    now apply (table_inv_store fs _ s). }
  destruct (asymmetricfs.read_ fs); [|now simplify_eq].
  destruct (internal.load_buffer h s) as [[[h1 s1] ret1]|] eqn:Hload; [|done].
  apply load_buffer_same_file in Hload as (_ & _ & _ & Hpath & Hopen).
  repeat case_match; simplify_eq; now apply (table_inv_store fs _ s).
Qed.

Lemma truncate_table_inv fs h path offset uninit fs' h' ret :
  asymmetricfs.truncate fs h path offset uninit = Some (fs', h', ret) ->
  table_inv fs -> table_inv fs'.
Proof.
  unfold asymmetricfs.truncate. intros Ht Hfs.
  destruct (offset <? 0); [now simplify_eq|].
  destruct (asymmetricfs.open_paths_ fs !! path) as [id|].
  - eauto using truncatefd_table_inv.
  - repeat case_match; now simplify_eq.
Qed.

Lemma release_table_inv fs h info fs' h' ret :
  asymmetricfs.release fs h info = Some (fs', h', ret) ->
  table_inv fs -> table_inv fs'.
Proof.
  unfold asymmetricfs.release. intros Hr Hfs.
  destruct (asymmetricfs.open_fds_ fs !! fuse_file_info.fh info) as [s|] eqn:Hs;
    [|now simplify_eq].
  destruct (_ =? 0).
  - destruct (internal.close _ _ _) as [[h1 s1] ret1]. simplify_eq.
    destruct Hfs as [Hopen Hnext Hpaths]. split; simpl.
    + intros id s0 Hid. apply lookup_delete_Some in Hid as [_ Hid]. eauto.
    + intros id s0 Hid. apply lookup_delete_Some in Hid as [_ Hid]. eauto.
    + intros p id Hp. apply lookup_delete_Some in Hp as [Hne Hp].
      destruct (Hpaths p id Hp) as (s0 & Hs0 & Hp0).
      exists s0. split; [|done]. rewrite lookup_delete_ne; [done|].
      intros <-. now simplify_eq.
  - simplify_eq. now apply (table_inv_store fs _ s).
Qed.

Lemma rename_table_inv fs h oldpath newpath fs' h' ret :
  asymmetricfs.rename fs h oldpath newpath = Some (fs', h', ret) ->
  table_inv fs -> table_inv fs'.
Proof.
  unfold asymmetricfs.rename. intros Hr Hfs.
  destruct (sys_rename h _ _) as [h1 [[]|errno]]; [|now simplify_eq].
  destruct (asymmetricfs.open_paths_ fs !! oldpath) as [fd|] eqn:Hold;
    [|now simplify_eq].
  destruct (asymmetricfs.open_fds_ fs !! fd) as [s|] eqn:Hs; [|done].
  simplify_eq. destruct Hfs as [Hopen Hnext Hpaths].
  destruct (Hpaths oldpath fd Hold) as (s0 & Hs0 & Hp0). simplify_eq.
  split; simpl.
  - intros id s1. rewrite lookup_insert. case_decide; intros; simplify_eq;
      simpl; eauto.
  - intros id s1. rewrite lookup_insert. case_decide; intros; simplify_eq;
      eauto.
  - intros p id Hp. apply lookup_delete_Some in Hp as [Hne Hp].
    assert (Hcases : (p = newpath /\ id = fd)
                     \/ asymmetricfs.open_paths_ fs !! p = Some id).
    { unfold asymmetricfs.map_insert in Hp.
      destruct (asymmetricfs.open_paths_ fs !! newpath); [now right|].
      rewrite lookup_insert in Hp. case_decide; simplify_eq; auto. }
    destruct Hcases as [[-> ->]|Hp'].
    + eexists. rewrite lookup_insert_eq. done.
    + destruct (Hpaths p id Hp') as (s1 & Hs1 & Hp1).
      exists s1. split; [|done]. rewrite lookup_insert_ne; [done|].
      intros <-. now simplify_eq.
Qed.

Lemma statfd_table_inv fs h fd buf fs' h' ret st :
  asymmetricfs.statfd fs h fd buf = Some (fs', h', ret, st) ->
  table_inv fs -> table_inv fs'.
Proof.
  unfold asymmetricfs.statfd. intros Hst Hfs.
  destruct (negb buf); [now simplify_eq|].
  destruct (asymmetricfs.open_fds_ fs !! fd) as [s|] eqn:Hs; [|now simplify_eq].
  destruct (sys_fstat h (internal.fd s)); [|now simplify_eq].
  destruct (asymmetricfs.read_ fs).
  - destruct (internal.load_buffer h s) as [[[h1 s1] ret1]|] eqn:Hload; [|done].
    apply load_buffer_same_file in Hload as (_ & _ & _ & Hpath & Hopen).
    repeat case_match; simplify_eq; now apply (table_inv_store fs _ s).
  - repeat case_match; simplify_eq; now apply (table_inv_store fs _ s).
Qed.

Lemma step_table_inv fs h o fs' h' r :
  step fs h o = Some (fs', h', r) -> table_inv fs -> table_inv fs'.
Proof.
  destruct o; simpl; intros Hstep Hfs.
  - destruct (asymmetricfs.create _ _ _ _ _) as [[[[] ?] ?]|] eqn:Hop;
      simpl in Hstep; simplify_eq. eauto using create_table_inv.
  - destruct (asymmetricfs.open _ _ _ _) as [[[[] ?] ?]|] eqn:Hop;
      simpl in Hstep; simplify_eq. eauto using open_table_inv.
  - destruct (asymmetricfs.read _ _ _ _ _) as [[[[] ?] ?]|] eqn:Hop;
      simpl in Hstep; simplify_eq. eauto using read_table_inv.
  - destruct (asymmetricfs.write _ _ _ _ _) as [[[] ?]|] eqn:Hop;
      simpl in Hstep; simplify_eq. eauto using write_table_inv.
  - destruct (asymmetricfs.truncate _ _ _ _ _) as [[[] ?]|] eqn:Hop;
      simpl in Hstep; simplify_eq. eauto using truncate_table_inv.
  - destruct (asymmetricfs.ftruncate _ _ _ _) as [[[] ?]|] eqn:Hop;
      simpl in Hstep; simplify_eq.
    unfold asymmetricfs.ftruncate in Hop. eauto using truncatefd_table_inv.
  - destruct (asymmetricfs.release _ _ _) as [[[] ?]|] eqn:Hop;
      simpl in Hstep; simplify_eq. eauto using release_table_inv.
  - destruct (asymmetricfs.rename _ _ _ _) as [[[] ?]|] eqn:Hop;
      simpl in Hstep; simplify_eq. eauto using rename_table_inv.
  - destruct (asymmetricfs.getattr _ _ _ _) as [[[[] ?] ?]|] eqn:Hop;
      simpl in Hstep; simplify_eq.
    unfold asymmetricfs.getattr in Hop.
    destruct (asymmetricfs.open_paths_ fs !! path);
      [eauto using statfd_table_inv|].
    repeat case_match; now simplify_eq.
  - destruct (asymmetricfs.fgetattr _ _ _ _) as [[[[] ?] ?]|] eqn:Hop;
      simpl in Hstep; simplify_eq.
    unfold asymmetricfs.fgetattr in Hop. eauto using statfd_table_inv.
  - now simplify_eq.
  - now simplify_eq.
Qed.

(** Every mount a run passes through from consistent tables has
    consistent tables; in particular every state [release] meets is open,
    and the asserts of [open] and [rename] hold. *)
Lemma run_table_inv (ops : list op) :
  forall fs (h : H),
    table_inv fs -> Forall table_inv (mounts_after fs h ops).
Proof.
  induction ops as [|o ops IH]; simpl; intros fs h Hfs; [constructor|].
  destruct (step fs h o) as [[[fs1 h1] r]|] eqn:Hstep; [|constructor].
  assert (table_inv fs1) by eauto using step_table_inv.
  constructor; [done|]. now apply IH.
Qed.

End table_inv.

(** ** The test suite's scenarios

    [ReadWriteModeTest] of the repository's tests, run callback by callback
    on [SimpleHost]; the replies are the values the tests expect. *)

Example test_ReadWrite :
  replies (run rw_mount SimpleHost.empty
             [OpCreate "/test" 384 (info0 (Z.lor O_CREAT O_RDWR));
              OpWrite (bytes "abcdefg") 0 (handle 0);
              OpRead 65536 0 (handle 0);
              OpRelease (handle 0);
              OpOpen "/test" (info0 0);
              OpRead 65536 0 (handle 1);
              OpRelease (handle 1)])
  = Some [RInfo 0 (fuse_file_info.mk (Z.lor O_CREAT O_RDWR) 0);
          RInt 7;
          RData 7 (bytes "abcdefg");
          RInt 0;
          RInfo 0 (fuse_file_info.mk 0 1);
          RData 7 (bytes "abcdefg");
          RInt 0].
Proof. vm_compute. reflexivity. Qed.

Example test_Append :
  replies (run rw_mount SimpleHost.empty
             [OpCreate "/test" 384 (info0 (Z.lor O_CREAT O_RDWR));
              OpWrite (bytes "abcdefg") 0 (handle 0);
              OpRead 65536 0 (handle 0);
              OpRelease (handle 0);
              OpOpen "/test" (info0 (Z.lor O_APPEND O_WRONLY));
              OpWrite (bytes "hijklmn") 0 (handle 1);
              OpRelease (handle 1);
              OpOpen "/test" (info0 0);
              OpRead 65536 0 (handle 2);
              OpRelease (handle 2)])
  = Some [RInfo 0 (fuse_file_info.mk (Z.lor O_CREAT O_RDWR) 0);
          RInt 7;
          RData 7 (bytes "abcdefg");
          RInt 0;
          RInfo 0 (fuse_file_info.mk (Z.lor O_APPEND O_WRONLY) 1);
          RInt 7;
          RInt 0;
          RInfo 0 (fuse_file_info.mk 0 2);
          RData 14 (bytes "abcdefghijklmn");
          RInt 0].
Proof. vm_compute. reflexivity. Qed.

Example test_TwoHandles :
  replies (run rw_mount SimpleHost.empty
             [OpCreate "/test" 384 (info0 (Z.lor O_CREAT O_RDWR));
              OpWrite (bytes "abcdefg") 0 (handle 0);
              OpOpen "/test" (info0 O_RDONLY);
              OpRead 65536 0 (handle 0);
              OpRelease (handle 0);
              OpRelease (handle 0)])
  = Some [RInfo 0 (fuse_file_info.mk (Z.lor O_CREAT O_RDWR) 0);
          RInt 7;
          RInfo 0 (fuse_file_info.mk O_RDONLY 0);
          RData 7 (bytes "abcdefg");
          RInt 0;
          RInt 0].
Proof. vm_compute. reflexivity. Qed.

(** The truncation scenario: a file of 100 bytes cut to 40 through its
    handle holds the first 40 bytes when it is opened again. *)
Example scenario_ftruncate :
  replies (run rw_mount SimpleHost.empty
             [OpCreate "/test" 384 (info0 (Z.lor O_CREAT O_RDWR));
              OpWrite (replicate 60 x41 ++ replicate 40 x42) 0 (handle 0);
              OpFtruncate 40 (handle 0);
              OpRelease (handle 0);
              OpOpen "/test" (info0 O_RDONLY);
              OpRead 65536 0 (handle 1)])
  = Some [RInfo 0 (fuse_file_info.mk (Z.lor O_CREAT O_RDWR) 0);
          RInt 100;
          RInt 0;
          RInt 0;
          RInfo 0 (fuse_file_info.mk O_RDONLY 1);
          RData 40 (replicate 40 x41)].
Proof. vm_compute. reflexivity. Qed.

(** Write-only mode on a host that holds the file ["/x"]: the attributes
    of the file come without the read permission bits, and hard links are
    refused. *)
Example scenario_write_only :
  replies (run wo_mount (host_x (bytes "secret"))
             [OpGetattr "/x" true; OpAccess "/x" R_OK; OpLink "/x" "/y"])
  = Some [RStat 0 (Some (mkStat (Z.lor S_IFREG 128) 38));
          RInt (- EACCES);
          RInt (- EPERM)].
Proof. vm_compute. reflexivity. Qed.

(** ** [read] *)

Section read.
Context {H : Type} `{Host H}.
Variables (fs : asymmetricfs.t) (h : H) (info : fuse_file_info.t).
Variable s : internal.t.
Hypothesis Hs : asymmetricfs.open_fds_ fs !! fuse_file_info.fh info = Some s.

Lemma store_same :
  asymmetricfs.set_open_fds_
    (<[fuse_file_info.fh info:=s]> (asymmetricfs.open_fds_ fs)) fs = fs.
Proof. rewrite insert_id by done. now destruct fs. Qed.

(** Write-only mode, buffer known: the bytes at [offset]. *)
Lemma read_write_only_known (size offset : Z) :
  asymmetricfs.read_ fs = false ->
  internal.buffer_set s = true ->
  0 <= offset -> 0 <= size <= INT_MAX ->
  let n := Z.max 0 (Z.min (buf_size (internal.buffer s) - offset) size) in
  asymmetricfs.read fs h size offset info
  = Some (fs, h, n, copy_out (internal.buffer s) offset n).
Proof.
  intros Hro Hset Hoff Hsize n. unfold asymmetricfs.read.
  rewrite Hs, Hro, Hset. simpl.
  destruct (Z.ltb_spec offset 0); [lia|].
  destruct (Z.ltb_spec (buf_size (internal.buffer s)) offset) as [Hlt|Hge].
  - replace n with 0 by lia. unfold copy_out. simpl. now rewrite take_0.
  - rewrite (Z.min_l _ INT_MAX) by lia.
    replace n with (Z.min (buf_size (internal.buffer s) - offset) size) by lia.
    rewrite to_int_id; [done|]. unfold INT_MAX in *. lia.
Qed.

(** Read/write mode, buffer known: the count is that of the contract, the
    bytes are the first [n] of the buffer whatever the offset. *)
Lemma read_read_enabled_known (size offset : Z) :
  asymmetricfs.read_ fs = true ->
  internal.buffer_set s = true ->
  0 <= offset -> 0 <= size < INT_MAX ->
  let n := Z.max 0 (Z.min (buf_size (internal.buffer s) - offset) size) in
  asymmetricfs.read fs h size offset info
  = Some (fs, h, n, copy_out (internal.buffer s) 0 n).
Proof.
  intros Hrw Hset Hoff Hsize n. unfold asymmetricfs.read.
  rewrite Hs, Hrw. unfold internal.load_buffer. rewrite Hset. simpl.
  rewrite Hset, store_same. simpl.
  destruct (Z.ltb_spec offset 0); [lia|].
  destruct (Z.leb_spec (buf_size (internal.buffer s)) offset) as [Hle|Hgt].
  - replace n with 0 by lia. unfold copy_out. simpl. now rewrite take_0.
  - replace n with (Z.min (buf_size (internal.buffer s) - offset) size) by lia.
    destruct (Z.ltb_spec (Z.min (buf_size (internal.buffer s) - offset) size)
                INT_MAX); [|lia].
    simpl. rewrite to_int_id; [done|]. unfold INT_MAX in *. lia.
Qed.

End read.

(** C1 (the code departs from the claim).  In read/write mode, after
    "abcdefg" has been written to a new file, a read of 3 bytes at offset 2
    returns the count 3 of the claim but hands back "abc", the first bytes
    of the buffer, where the claim has the bytes at the offset, "cde". *)
Example read_rw_copies_from_buffer_start :
  replies (run rw_mount SimpleHost.empty
             [OpCreate "/test" 384 (info0 (Z.lor O_CREAT O_RDWR));
              OpWrite (bytes "abcdefg") 0 (handle 0);
              OpRead 3 2 (handle 0)])
  = Some [RInfo 0 (fuse_file_info.mk (Z.lor O_CREAT O_RDWR) 0);
          RInt 7;
          RData 3 (bytes "abc")]
  /\ copy_out (bytes "abcdefg") 2 3 = bytes "cde".
Proof. split; vm_compute; reflexivity. Qed.

(** The same read in write-only mode returns the bytes at the offset. *)
Example read_wo_copies_from_offset :
  replies (run wo_mount SimpleHost.empty
             [OpCreate "/test" 384 (info0 (Z.lor O_CREAT O_RDWR));
              OpWrite (bytes "abcdefg") 0 (handle 0);
              OpRead 3 2 (handle 0)])
  = Some [RInfo 0 (fuse_file_info.mk (Z.lor O_CREAT O_RDWR) 0);
          RInt 7;
          RData 3 (bytes "cde")].
Proof. vm_compute. reflexivity. Qed.

(** ** [write] *)

Section write.
Context {H : Type} `{Host H}.
Variables (fs : asymmetricfs.t) (h : H) (info : fuse_file_info.t).
Variable s : internal.t.

(** C7.  On a valid handle: an empty write returns 0 and changes nothing;
    otherwise a negative offset is refused with EINVAL; otherwise the buffer
    is resized to [max(buffer.size, offset+size)], the input is copied in at
    [offset], [dirty] is set, [size] is returned, and the host (hence the
    backing file) is left as it was.  [size] is within the range of the
    returned [int] and [offset] within that of [off_t]. *)
Theorem write_contract (data : list byte) (offset : Z) :
  asymmetricfs.open_fds_ fs !! fuse_file_info.fh info = Some s ->
  offset <= OFF_MAX ->
  buf_size data <= INT_MAX ->
  let size := buf_size data in
  let old := internal.buffer s in
  let new_size := Z.max (buf_size old) (offset + size) in
  let buf := memcpy_at (resize new_size old) offset data in
  (size = 0 ->
     asymmetricfs.write fs h data offset info = Some (fs, h, 0))
  /\ (size <> 0 -> offset < 0 ->
     asymmetricfs.write fs h data offset info = Some (fs, h, - EINVAL))
  /\ (size <> 0 -> 0 <= offset ->
     asymmetricfs.write fs h data offset info
     = Some (asymmetricfs.set_open_fds_
               (<[fuse_file_info.fh info :=
                    internal.set_dirty true (internal.set_buffer buf s)]>
                  (asymmetricfs.open_fds_ fs)) fs,
             h, size)
     /\ buf_size buf = new_size
     /\ copy_out buf offset size = data
     /\ forall i : nat,
          (i < Z.to_nat offset \/ Z.to_nat offset + length data <= i)%nat ->
          buf !! i = resize new_size old !! i).
Proof.
  intros Hs Hoff Hsize size old new_size buf.
  pose proof (buf_size_nonneg data) as Hd.
  pose proof (buf_size_nonneg old) as Ho.
  unfold asymmetricfs.write. rewrite Hs. fold size.
  split; [|split].
  - intros ->. reflexivity.
  - intros Hne Hneg.
    destruct (Z.eqb_spec size 0); [done|].
    destruct (Z.ltb_spec offset 0); [done|lia].
  - intros Hne Hpos.
    destruct (Z.eqb_spec size 0); [done|].
    destruct (Z.ltb_spec offset 0); [lia|].
    assert (Hwrap : to_size_t (offset + size) = offset + size).
    { apply to_size_t_id. unfold OFF_MAX, INT_MAX in *. lia. }
    rewrite Hwrap. fold old new_size.
    destruct (Z.ltb_spec new_size (offset + size)); [lia|].
    assert (Hfit : offset + buf_size data <= buf_size (resize new_size old)).
    { rewrite buf_size_resize; lia. }
    fold buf. rewrite to_int_id by (unfold INT_MAX in *; lia).
    split; [done|]. split; [|split].
    + unfold buf. rewrite buf_size_memcpy_at by done.
      apply buf_size_resize. lia.
    + now apply copy_out_memcpy_at.
    + intros i Hi. now apply memcpy_at_lookup_outside.
Qed.

End write.

Lemma write_contract_witness :
  asymmetricfs.open_fds_ (one_file true (bytes "abcdefg"))
    !! fuse_file_info.fh (handle 0)
  = Some (internal.mk 3 (Z.lor O_CREAT O_RDWR) 1 "/test" true false
            (bytes "abcdefg") true)
  /\ 5 <= OFF_MAX
  /\ buf_size (bytes "XYZ") <= INT_MAX
  /\ asymmetricfs.write (one_file true (bytes "abcdefg")) SimpleHost.empty
       (bytes "XYZ") 5 (handle 0)
     = Some (asymmetricfs.mk true 1 {["/test"%string := 0]}
               {[0 := internal.mk 3 (Z.lor O_CREAT O_RDWR) 1 "/test" true true
                        (bytes "abcdeXYZ") true]}
               ["0xTESTKEY"%string],
             SimpleHost.empty, 3).
Proof.
  assert (H1 : asymmetricfs.open_fds_ (one_file true (bytes "abcdefg"))
                 !! fuse_file_info.fh (handle 0)
               = Some (internal.mk 3 (Z.lor O_CREAT O_RDWR) 1 "/test" true
                         false (bytes "abcdefg") true)) by reflexivity.
  assert (H2 : 5 <= OFF_MAX) by (vm_compute; discriminate).
  assert (H3 : buf_size (bytes "XYZ") <= INT_MAX) by (vm_compute; discriminate).
  split; [exact H1|]. split; [exact H2|]. split; [exact H3|].
  destruct (write_contract (one_file true (bytes "abcdefg")) SimpleHost.empty
              (handle 0) _ (bytes "XYZ") 5 H1 H2 H3) as (_ & _ & Hw).
  destruct Hw as [Hw _]; [vm_compute; discriminate | vm_compute; discriminate |].
  rewrite Hw. vm_compute. reflexivity.
Defined.

(** ** Unknown handles *)

(** C10.  For a handle id that is not in the handle table, [release]
    returns 0 and leaves the mount and the host as they were, whereas
    [read], [write], [ftruncate] and [fgetattr] (given a stat buffer)
    return EBADF, also without changing anything. *)
Theorem release_ignores_unknown_handle {H : Type} `{Host H}
    (fs : asymmetricfs.t) (h : H) (info : fuse_file_info.t)
    (size offset : Z) (data : list byte) :
  asymmetricfs.open_fds_ fs !! fuse_file_info.fh info = None ->
  asymmetricfs.release fs h info = Some (fs, h, 0)
  /\ asymmetricfs.read fs h size offset info = Some (fs, h, - EBADF, [])
  /\ asymmetricfs.write fs h data offset info = Some (fs, h, - EBADF)
  /\ asymmetricfs.ftruncate fs h offset info = Some (fs, h, - EBADF)
  /\ asymmetricfs.fgetattr fs h true info = Some (fs, h, - EBADF, None).
Proof.
  intros Hnone.
  unfold asymmetricfs.release, asymmetricfs.read, asymmetricfs.write,
    asymmetricfs.ftruncate, asymmetricfs.truncatefd, asymmetricfs.fgetattr,
    asymmetricfs.statfd.
  rewrite Hnone. simpl. repeat split.
Qed.

Lemma release_ignores_unknown_handle_witness :
  asymmetricfs.open_fds_ (one_file true []) !! fuse_file_info.fh (handle 7)
  = None
  /\ asymmetricfs.release (one_file true []) SimpleHost.empty (handle 7)
     = Some (one_file true [], SimpleHost.empty, 0)
  /\ asymmetricfs.write (one_file true []) SimpleHost.empty (bytes "x") 0
       (handle 7)
     = Some (one_file true [], SimpleHost.empty, - EBADF).
Proof.
  assert (H1 : asymmetricfs.open_fds_ (one_file true [])
                 !! fuse_file_info.fh (handle 7) = None) by reflexivity.
  destruct (release_ignores_unknown_handle (one_file true []) SimpleHost.empty
              (handle 7) 1 0 (bytes "x") H1) as (Hr & _ & Hw & _).
  split; [exact H1|]. split; [exact Hr | exact Hw].
Defined.

(** ** [access] *)

(** C6, as amended.  In write-only mode a request for R_OK is answered
    with EACCES when the host's own check of the path succeeds; when the
    host's check fails, its error is returned instead. *)
Theorem access_read_denied_after_host_check {H : Type} `{Host H}
    (fs : asymmetricfs.t) (h : H) (path : string) (mode : Z) :
  has_flag mode R_OK = true ->
  asymmetricfs.read_ fs = false ->
  asymmetricfs.access fs h path mode
  = match sys_access h (asymmetricfs.relpath path) mode with
    | Ok _ => - EACCES
    | Err errno => - errno
    end.
Proof.
  intros Hmode Hro. unfold asymmetricfs.access. now rewrite Hmode, Hro.
Qed.

Lemma access_read_denied_witness :
  has_flag R_OK R_OK = true
  /\ asymmetricfs.read_ wo_mount = false
  /\ asymmetricfs.access wo_mount (host_x (bytes "secret")) "/x" R_OK
     = - EACCES.
Proof.
  split; [reflexivity|]. split; [reflexivity|].
  rewrite (access_read_denied_after_host_check wo_mount
             (host_x (bytes "secret")) "/x" R_OK eq_refl eq_refl).
  reflexivity.
Defined.

(** C6, the claim as stated fails: in write-only mode, asking for R_OK on
    a path the host does not have returns ENOENT, not EACCES. *)
Lemma access_missing_path_counterexample :
  has_flag R_OK R_OK = true
  /\ asymmetricfs.read_ wo_mount = false
  /\ asymmetricfs.access wo_mount (host_x (bytes "secret")) "/missing" R_OK
     = - ENOENT
  /\ - ENOENT <> - EACCES.
Proof. repeat split; vm_compute; congruence. Qed.

(** ** [release] *)

Section release.
Context {H : Type} `{Host H}.

Lemma close_host (recipients : list gpg_recipient) (h : H) (s : internal.t) :
  internal.open_ s = true ->
  (internal.close recipients h s).1.1 = host_after_close recipients h s.
Proof.
  intros Hopen. unfold internal.close, host_after_close. rewrite Hopen. simpl.
  destruct (internal.dirty s).
  - destruct (sys_gpg_encrypt h recipients (internal.fd s) (internal.buffer s))
      as [h1 w]. simpl.
    now destruct (sys_close h1 (internal.fd s)).
  - simpl. now destruct (sys_close h (internal.fd s)).
Qed.

(** C4.  [release] returns 0 whatever the handle and whatever the cipher
    child and [close] report.  For a handle in the table it decrements the
    reference count; when the new count is not zero nothing else changes;
    when it is zero the entry of the state's path and the entry of the
    handle id are erased and the state is destroyed, which runs the cipher
    child on the buffer exactly when the state is dirty. *)
Theorem release_contract (fs : asymmetricfs.t) (h : H)
    (info : fuse_file_info.t) :
  (exists fs' h', asymmetricfs.release fs h info = Some (fs', h', 0))
  /\ forall s : internal.t,
       asymmetricfs.open_fds_ fs !! fuse_file_info.fh info = Some s ->
       internal.open_ s = true ->
       let n := to_unsigned (internal.references s - 1) in
       (1 <= internal.references s < 2 ^ 32 -> n = internal.references s - 1)
       /\ (n <> 0 ->
           asymmetricfs.release fs h info
           = Some (asymmetricfs.set_open_fds_
                     (<[fuse_file_info.fh info := internal.set_references n s]>
                        (asymmetricfs.open_fds_ fs)) fs,
                   h, 0))
       /\ (n = 0 ->
           asymmetricfs.release fs h info
           = Some (asymmetricfs.set_open_fds_
                     (delete (fuse_file_info.fh info)
                        (asymmetricfs.open_fds_ fs))
                     (asymmetricfs.set_open_paths_
                        (delete (internal.path s)
                           (asymmetricfs.open_paths_ fs)) fs),
                   host_after_close (asymmetricfs.recipients_ fs) h s,
                   0)).
Proof.
  split.
  - unfold asymmetricfs.release.
    destruct (asymmetricfs.open_fds_ fs !! fuse_file_info.fh info) as [s|];
      [|eauto].
    destruct (to_unsigned (internal.references s - 1) =? 0); [|eauto].
    destruct (internal.close _ h _) as [[h' s'] ret]. eauto.
  - intros s Hs Hopen n. split; [|split].
    + intros Hrefs. apply to_unsigned_id. lia.
    + intros Hn. unfold asymmetricfs.release. rewrite Hs. fold n.
      now destruct (Z.eqb_spec n 0).
    + intros Hn. unfold asymmetricfs.release. rewrite Hs. fold n.
      destruct (Z.eqb_spec n 0); [|done].
      pose proof (close_host (asymmetricfs.recipients_ fs) h
                    (internal.set_references n s) Hopen) as Hclose.
      simpl in *.
      destruct (internal.close (asymmetricfs.recipients_ fs) h
                  (internal.set_references n s)) as [[h' s'] ret].
      simpl in Hclose. subst h'. reflexivity.
Qed.

End release.

(** A file written and not yet flushed, released for the last time: both
    table entries go and the backing file receives the encrypted buffer. *)
Lemma release_contract_witness :
  asymmetricfs.release
    (asymmetricfs.mk true 1 {["/x"%string := 0]}
       {[0 := internal.mk 3 (Z.lor O_CREAT O_RDWR) 1 "/x" true true
                (bytes "hi") true]} ["0xTESTKEY"%string])
    (SimpleHost.mk {["./x"%string := 1]} {[1 := SimpleHost.mkInode 384 []]}
       {[3 := SimpleHost.mkDescr 1 (Z.lor O_CREAT O_RDWR) 0]} 2 4)
    (handle 0)
  = Some (asymmetricfs.mk true 1 ∅ ∅ ["0xTESTKEY"%string],
          SimpleHost.mk {["./x"%string := 1]}
            {[1 := SimpleHost.mkInode 384 (SimpleHost.armor (bytes "hi"))]}
            ∅ 2 4,
          0).
Proof.
  pose proof (release_contract
                (asymmetricfs.mk true 1 {["/x"%string := 0]}
                   {[0 := internal.mk 3 (Z.lor O_CREAT O_RDWR) 1 "/x" true true
                            (bytes "hi") true]} ["0xTESTKEY"%string])
                (SimpleHost.mk {["./x"%string := 1]}
                   {[1 := SimpleHost.mkInode 384 []]}
                   {[3 := SimpleHost.mkDescr 1 (Z.lor O_CREAT O_RDWR) 0]} 2 4)
                (handle 0)) as [_ Hrel].
  specialize (Hrel _ eq_refl eq_refl). simpl in Hrel.
  destruct Hrel as (_ & _ & Hzero).
  rewrite Hzero by reflexivity. vm_compute. reflexivity.
Defined.

(** ** [open] in write-only mode *)

Section open_write_only.
Context {H : Type} `{Host H}.

(** C5, as amended.  In write-only mode, opening a path that is not yet in
    the table with read access requested makes one host call, with O_EXCL
    added exactly when O_CREAT was asked for, and returns what the host
    returns: the negated host error when the host refuses (as it does for
    a file that exists when O_CREAT, hence O_EXCL, is among the flags), and
    0 with a new handle otherwise.  Without O_CREAT a pre-existing file is
    thus opened; it is [read] on the new handle that answers EACCES for as
    long as the buffer is unknown, which is the case when the file is not
    empty. *)
Theorem open_write_only_for_reading (fs : asymmetricfs.t) (h : H)
    (path : string) (info : fuse_file_info.t) :
  asymmetricfs.read_ fs = false ->
  asymmetricfs.open_paths_ fs !! path = None ->
  asymmetricfs.for_reading (fuse_file_info.flags info) = true ->
  let flags :=
    if has_flag (fuse_file_info.flags info) O_CREAT
    then Z.lor (fuse_file_info.flags info) O_EXCL
    else fuse_file_info.flags info in
  match sys_openat h (asymmetricfs.relpath path) flags None with
  | (h', Err errno) =>
      asymmetricfs.open fs h path info = Some (fs, h', - errno, info)
  | (h', Ok ret) =>
      let buffer_set :=
        match sys_fstat h' ret with
        | Ok buf => st_size buf =? 0
        | Err _ => false
        end in
      let fs' :=
        (asymmetricfs.register fs path
           (internal.new ret flags path 1 buffer_set)).2 in
      let info' := fuse_file_info.set_fh (asymmetricfs.next_ fs) info in
      asymmetricfs.open fs h path info = Some (fs', h', 0, info')
      /\ (asymmetricfs.open_fds_ fs !! asymmetricfs.next_ fs = None ->
          has_flag (fuse_file_info.flags info) O_CREAT = false ->
          buffer_set = false ->
          forall size offset : Z, 0 <= offset ->
            asymmetricfs.read fs' h' size offset info'
            = Some (fs', h', - EACCES, []))
  end.
Proof.
  intros Hro Hpath Hreading flags.
  unfold asymmetricfs.open. rewrite Hpath.
  unfold asymmetricfs.open_flags, asymmetricfs.make_rdwr.
  rewrite Hro, Hreading. simpl. fold flags.
  destruct (sys_openat h (asymmetricfs.relpath path) flags None)
    as [h' [ret|errno]]; [|reflexivity].
  split; [reflexivity|].
  intros Hfresh Hcreat Hunset size offset Hoff.
  unfold asymmetricfs.read, asymmetricfs.register, asymmetricfs.map_insert.
  simpl. rewrite Hfresh, lookup_insert_eq, Hro, Hunset. simpl.
  destruct (Z.ltb_spec offset 0); [lia|].
  unfold flags. rewrite Hcreat. rewrite Hcreat. simpl.
  now rewrite orb_true_r.
Qed.

End open_write_only.

Lemma open_write_only_for_reading_witness :
  asymmetricfs.read_ wo_mount = false
  /\ asymmetricfs.open_paths_ wo_mount !! "/x"%string = None
  /\ asymmetricfs.for_reading (fuse_file_info.flags (info0 O_RDONLY)) = true
  /\ open_ret (asymmetricfs.open wo_mount (host_x (bytes "secret")) "/x"
                 (info0 O_RDONLY)) = Some 0.
Proof.
  split; [reflexivity|]. split; [reflexivity|]. split; [reflexivity|].
  pose proof (open_write_only_for_reading wo_mount (host_x (bytes "secret"))
                "/x" (info0 O_RDONLY) eq_refl eq_refl eq_refl) as Hopen.
  destruct (sys_openat (host_x (bytes "secret")) (asymmetricfs.relpath "/x")
              (if has_flag (fuse_file_info.flags (info0 O_RDONLY)) O_CREAT
               then Z.lor (fuse_file_info.flags (info0 O_RDONLY)) O_EXCL
               else fuse_file_info.flags (info0 O_RDONLY)) None)
    as [h' [ret|errno]] eqn:Hsys.
  - destruct Hopen as [-> _]. reflexivity.
  - vm_compute in Hsys. discriminate.
Defined.

(** C5, the claim as stated fails: in write-only mode, opening the
    existing, non-empty file ["/x"] read-only succeeds (the read that
    follows is what is refused), and opening it with O_CREAT and read
    access fails with EEXIST; neither returns EACCES. *)
Lemma open_existing_write_only_counterexample :
  asymmetricfs.read_ wo_mount = false
  /\ SimpleHost.lstat (host_x (bytes "secret")) "./x"
     = Ok (mkStat (Z.lor S_IFREG 420) 38)
  /\ replies (run wo_mount (host_x (bytes "secret"))
                [OpOpen "/x" (info0 O_RDONLY); OpRead 16 0 (handle 0)])
     = Some [RInfo 0 (fuse_file_info.mk O_RDONLY 0); RData (- EACCES) []]
  /\ replies (run wo_mount (host_x (bytes "secret"))
                [OpOpen "/x" (info0 (Z.lor O_CREAT O_RDWR))])
     = Some [RInfo (- EEXIST) (info0 (Z.lor O_CREAT O_RDWR))]
  /\ 0 <> - EACCES /\ - EEXIST <> - EACCES.
Proof. repeat split; vm_compute; congruence. Qed.

(** ** [truncate] to zero, twice *)

Section truncate_twice.
Context {H : Type} `{Host H}.

(** On the host, cutting a file to length zero a second time changes
    nothing and reports what the first call reported. *)
Hypothesis ftruncate_zero_again : forall (h : H) (fd : Z),
  sys_ftruncate (sys_ftruncate h fd 0).1 fd 0 = sys_ftruncate h fd 0.
Hypothesis truncate_zero_again : forall (h : H) (path : string),
  sys_truncate (sys_truncate h path 0).1 path 0 = sys_truncate h path 0.

Lemma truncatefd_zero_twice (fs : asymmetricfs.t) (h : H) (fd : Z) :
  exists fs1 h1 ret,
    asymmetricfs.truncatefd fs h fd 0 = Some (fs1, h1, ret)
    /\ asymmetricfs.truncatefd fs1 h1 fd 0 = Some (fs1, h1, ret)
    /\ asymmetricfs.open_paths_ fs1 = asymmetricfs.open_paths_ fs.
Proof.
  unfold asymmetricfs.truncatefd.
  destruct (asymmetricfs.open_fds_ fs !! fd) as [s|] eqn:Hs.
  - simpl. pose proof (ftruncate_zero_again h (internal.fd s)) as Hagain.
    destruct (sys_ftruncate h (internal.fd s) 0) as [h1 [[]|errno]] eqn:Hft;
      simpl in Hagain.
    + eexists _, _, _. split; [reflexivity|]. simpl.
      rewrite lookup_insert_eq. simpl. rewrite Hagain.
      rewrite !resize_zero, insert_insert_eq. done.
    + eexists _, _, _. split; [reflexivity|].
      rewrite Hs. simpl. now rewrite Hagain.
  - eexists _, _, _. split; [reflexivity|]. now rewrite Hs.
Qed.

(** C9.  [truncate(path, 0)] returns, and a second call right after it
    returns the same value and leaves the same mount (both tables with
    their open-file states) and the same host (the backing files) as the
    first call left.  The host is one on which cutting to zero twice is
    the same as once. *)
Theorem truncate_zero_idempotent (fs : asymmetricfs.t) (h : H)
    (path : string) (uninit uninit' : bool) :
  exists fs1 h1 ret,
    asymmetricfs.truncate fs h path 0 uninit = Some (fs1, h1, ret)
    /\ asymmetricfs.truncate fs1 h1 path 0 uninit' = Some (fs1, h1, ret).
Proof.
  unfold asymmetricfs.truncate. simpl.
  destruct (asymmetricfs.open_paths_ fs !! path) as [fd|] eqn:Hpath.
  - destruct (truncatefd_zero_twice fs h fd) as (fs1 & h1 & ret & H1 & H2 & Hp).
    exists fs1, h1, ret. split; [done|]. now rewrite Hp, Hpath.
  - pose proof (truncate_zero_again h (asymmetricfs.relpath path)) as Hagain.
    destruct (sys_truncate h (asymmetricfs.relpath path) 0)
      as [h1 [[]|errno]]; simpl in Hagain;
      eexists _, _, _; (split; [reflexivity|]); now rewrite Hpath, Hagain.
Qed.

End truncate_twice.

(** [SimpleHost] is such a host. *)

Lemma simple_set_data_twice (h : SimpleHost.t) (ino : Z) (a b : list byte) :
  SimpleHost.set_data (SimpleHost.set_data h ino a) ino b
  = SimpleHost.set_data h ino b.
Proof.
  unfold SimpleHost.set_data. simpl. f_equal.
  rewrite alter_alter_eq. now apply alter_ext.
Qed.

Lemma simple_ftruncate_zero_again (h : SimpleHost.t) (fd : Z) :
  sys_ftruncate (sys_ftruncate h fd 0).1 fd 0 = sys_ftruncate h fd 0.
Proof.
  simpl. unfold SimpleHost.ftruncate.
  destruct (SimpleHost.fds h !! fd) as [d|] eqn:Hd; simpl; [|now rewrite Hd].
  destruct (SimpleHost.wants_write (SimpleHost.d_flags d)) eqn:Hw; simpl;
    [|now rewrite Hd, Hw].
  destruct (SimpleHost.inodes h !! SimpleHost.d_ino d) as [nd|] eqn:Hnd; simpl;
    [|now rewrite Hd, Hw, Hnd].
  rewrite Hd, Hw. simpl.
  rewrite lookup_alter_eq, Hnd. simpl.
  now rewrite simple_set_data_twice, !resize_zero.
Qed.

Lemma simple_truncate_zero_again (h : SimpleHost.t) (path : string) :
  sys_truncate (sys_truncate h path 0).1 path 0 = sys_truncate h path 0.
Proof.
  simpl. unfold SimpleHost.truncate.
  destruct (SimpleHost.names h !! path) as [ino|] eqn:Hino; simpl;
    [|now rewrite Hino].
  destruct (SimpleHost.inodes h !! ino) as [nd|] eqn:Hnd; simpl;
    [|now rewrite Hino, Hnd].
  destruct (has_flag (SimpleHost.i_mode nd) S_IWUSR) eqn:Hw; simpl;
    [|now rewrite Hino, Hnd, Hw].
  rewrite Hino. rewrite lookup_alter_eq, Hnd. simpl.
  rewrite Hw. simpl.
  now rewrite simple_set_data_twice, !resize_zero.
Qed.

(** The file ["/x"] is open with unsaved bytes in its buffer: after the
    first [truncate] the buffer and the backing file are empty, and the
    second call finds them so. *)
Lemma truncate_zero_idempotent_witness :
  asymmetricfs.truncate
    (asymmetricfs.mk true 1 {["/x"%string := 0]}
       {[0 := internal.mk 3 O_RDWR 1 "/x" true true (bytes "new") true]}
       ["0xTESTKEY"%string])
    (SimpleHost.mk {["./x"%string := 1]}
       {[1 := SimpleHost.mkInode 420 (SimpleHost.armor (bytes "old"))]}
       {[3 := SimpleHost.mkDescr 1 O_RDWR 0]} 2 4)
    "/x" 0 false
  = Some (asymmetricfs.mk true 1 {["/x"%string := 0]}
            {[0 := internal.mk 3 O_RDWR 1 "/x" true true [] true]}
            ["0xTESTKEY"%string],
          SimpleHost.mk {["./x"%string := 1]}
            {[1 := SimpleHost.mkInode 420 []]}
            {[3 := SimpleHost.mkDescr 1 O_RDWR 0]} 2 4,
          0)
  /\ asymmetricfs.truncate
       (asymmetricfs.mk true 1 {["/x"%string := 0]}
          {[0 := internal.mk 3 O_RDWR 1 "/x" true true [] true]}
          ["0xTESTKEY"%string])
       (SimpleHost.mk {["./x"%string := 1]}
          {[1 := SimpleHost.mkInode 420 []]}
          {[3 := SimpleHost.mkDescr 1 O_RDWR 0]} 2 4)
       "/x" 0 false
     = Some (asymmetricfs.mk true 1 {["/x"%string := 0]}
               {[0 := internal.mk 3 O_RDWR 1 "/x" true true [] true]}
               ["0xTESTKEY"%string],
             SimpleHost.mk {["./x"%string := 1]}
               {[1 := SimpleHost.mkInode 420 []]}
               {[3 := SimpleHost.mkDescr 1 O_RDWR 0]} 2 4,
             0).
Proof.
  destruct (truncate_zero_idempotent simple_ftruncate_zero_again
              simple_truncate_zero_again
              (asymmetricfs.mk true 1 {["/x"%string := 0]}
                 {[0 := internal.mk 3 O_RDWR 1 "/x" true true (bytes "new")
                          true]}
                 ["0xTESTKEY"%string])
              (SimpleHost.mk {["./x"%string := 1]}
                 {[1 := SimpleHost.mkInode 420
                          (SimpleHost.armor (bytes "old"))]}
                 {[3 := SimpleHost.mkDescr 1 O_RDWR 0]} 2 4)
              "/x" false false) as (fs1 & h1 & ret & Hfirst & Hsecond).
  assert (Hrun : asymmetricfs.truncate
            (asymmetricfs.mk true 1 {["/x"%string := 0]}
               {[0 := internal.mk 3 O_RDWR 1 "/x" true true (bytes "new")
                        true]}
               ["0xTESTKEY"%string])
            (SimpleHost.mk {["./x"%string := 1]}
               {[1 := SimpleHost.mkInode 420
                        (SimpleHost.armor (bytes "old"))]}
               {[3 := SimpleHost.mkDescr 1 O_RDWR 0]} 2 4)
            "/x" 0 false
          = Some (asymmetricfs.mk true 1 {["/x"%string := 0]}
                    {[0 := internal.mk 3 O_RDWR 1 "/x" true true [] true]}
                    ["0xTESTKEY"%string],
                  SimpleHost.mk {["./x"%string := 1]}
                    {[1 := SimpleHost.mkInode 420 []]}
                    {[3 := SimpleHost.mkDescr 1 O_RDWR 0]} 2 4,
                  0)) by (vm_compute; reflexivity).
  rewrite Hrun in Hfirst. injection Hfirst as <- <- <-.
  split; [exact Hrun | exact Hsecond].
Defined.

(** ** Handle ids *)

Section handle_ids.
Context {H : Type} `{Host H}.

(** A failed [openat] reports an error number, which is never 0. *)
Hypothesis openat_errno : forall (h : H) path flags mode h' errno,
  sys_openat h path flags mode = (h', Err errno) -> errno <> 0.

Ltac step_cases :=
  repeat (simplify_eq; simpl in *; try case_match); simplify_eq; simpl in *.

Lemma register_next (fs : asymmetricfs.t) path data :
  (asymmetricfs.register fs path data).1 = asymmetricfs.next_ fs
  /\ asymmetricfs.next_ (asymmetricfs.register fs path data).2
     = asymmetricfs.next_ fs + 1.
Proof. done. Qed.

Lemma create_next fs h path mode info fs' h' ret info' :
  asymmetricfs.create fs h path mode info = Some (fs', h', ret, info') ->
  (ret = 0 /\ fuse_file_info.fh info' = asymmetricfs.next_ fs
   /\ asymmetricfs.next_ fs' = asymmetricfs.next_ fs + 1)
  \/ (ret <> 0 /\ fs' = fs).
Proof.
  unfold asymmetricfs.create. intros Hc.
  destruct (sys_openat h _ _ _) as [h1 [fd|errno]] eqn:H1.
  - left. unfold asymmetricfs.register in *. simpl in *. now simplify_eq.
  - destruct (_ && _).
    + destruct (sys_openat h1 _ _ _) as [h2 [fd|errno2]] eqn:H2.
      * left. unfold asymmetricfs.register in *. simpl in *. now simplify_eq.
      * right. simplify_eq. apply openat_errno in H2. split; [lia|done].
    + right. simplify_eq. apply openat_errno in H1. split; [lia|done].
Qed.

Lemma open_next fs h path info fs' h' ret info' :
  asymmetricfs.open fs h path info = Some (fs', h', ret, info') ->
  match asymmetricfs.open_paths_ fs !! path with
  | Some id =>
      ret = 0 /\ fuse_file_info.fh info' = id
      /\ asymmetricfs.next_ fs' = asymmetricfs.next_ fs
  | None =>
      (ret = 0 /\ fuse_file_info.fh info' = asymmetricfs.next_ fs
       /\ asymmetricfs.next_ fs' = asymmetricfs.next_ fs + 1)
      \/ (ret <> 0 /\ fs' = fs)
  end.
Proof.
  unfold asymmetricfs.open. intros Ho.
  destruct (asymmetricfs.open_paths_ fs !! path) as [id|].
  - destruct (asymmetricfs.open_fds_ fs !! id); now simplify_eq.
  - destruct (sys_openat h _ _ _) as [h1 [fd|errno]] eqn:H1.
    + left. unfold asymmetricfs.register in *. simpl in *. now simplify_eq.
    + destruct (_ && _).
      * destruct (sys_openat h1 _ _ _) as [h2 [fd|errno2]] eqn:H2.
        -- left. unfold asymmetricfs.register in *. simpl in *. now simplify_eq.
        -- right. simplify_eq. apply openat_errno in H2. split; [lia|done].
      * right. simplify_eq. apply openat_errno in H1. split; [lia|done].
Qed.

Lemma step_next fs h o fs' h' r :
  step fs h o = Some (fs', h', r) ->
  match assigns fs o r with
  | Some id =>
      id = asymmetricfs.next_ fs
      /\ asymmetricfs.next_ fs' = asymmetricfs.next_ fs + 1
  | None => asymmetricfs.next_ fs' = asymmetricfs.next_ fs
  end.
Proof.
  destruct o; simpl; intros Hstep.
  - destruct (asymmetricfs.create _ _ _ _ _) as [[[[fs1 h1] ret] info1]|] eqn:Hc;
      simpl in Hstep; simplify_eq; simpl.
    apply create_next in Hc as [(-> & ? & ?)|[? ->]]; [auto|].
    now destruct ret.
  - destruct (asymmetricfs.open _ _ _ _) as [[[[fs1 h1] ret] info1]|] eqn:Ho;
      simpl in Hstep; simplify_eq; simpl.
    apply open_next in Ho.
    destruct (asymmetricfs.open_paths_ fs !! path) as [id|].
    + destruct Ho as (-> & _ & ?). done.
    + destruct Ho as [(-> & ? & ?)|[? ->]]; [auto|]. now destruct ret.
  - unfold asymmetricfs.read in Hstep. step_cases; done.
  - unfold asymmetricfs.write in Hstep. step_cases; done.
  - unfold asymmetricfs.truncate, asymmetricfs.truncatefd in Hstep.
    step_cases; done.
  - unfold asymmetricfs.ftruncate, asymmetricfs.truncatefd in Hstep.
    step_cases; done.
  - unfold asymmetricfs.release in Hstep. step_cases; done.
  - unfold asymmetricfs.rename in Hstep. step_cases; done.
  - unfold asymmetricfs.getattr, asymmetricfs.statfd in Hstep.
    step_cases; done.
  - unfold asymmetricfs.fgetattr, asymmetricfs.statfd in Hstep.
    step_cases; done.
  - simplify_eq. done.
  - simplify_eq. done.
Qed.

(** The ids assigned in a run are the values of the counter, in order. *)
Lemma assigned_ids_seq (ops : list op) : forall fs h,
  assigned_ids fs h ops
  = seqZ (asymmetricfs.next_ fs) (Z.of_nat (length (assigned_ids fs h ops))).
Proof.
  induction ops as [|o ops IH]; simpl; intros fs h; [done|].
  destruct (step fs h o) as [[[fs' h'] r]|] eqn:Hstep; [|done].
  apply step_next in Hstep. specialize (IH fs' h').
  set (ids' := assigned_ids fs' h' ops) in *.
  destruct (assigns fs o r) as [id|].
  - destruct Hstep as [-> Hnext]. rewrite Hnext in IH.
    change (option_list (Some (asymmetricfs.next_ fs)) ++ ids')
      with (asymmetricfs.next_ fs :: ids').
    replace (Z.of_nat (length (asymmetricfs.next_ fs :: ids')))
      with (1 + Z.of_nat (length ids')) by (simpl; lia).
    rewrite seqZ_app by lia.
    change (seqZ (asymmetricfs.next_ fs) 1) with [asymmetricfs.next_ fs].
    simpl. f_equal. exact IH.
  - rewrite Hstep in IH. exact IH.
Qed.

(** C8.  Along any sequence of callbacks on a mount whose counter is not
    negative (it starts at 0), the handle ids assigned by the successful
    [create] and [open] calls, in the order of the calls, are strictly
    increasing and non-negative, and no id occurs twice.  The host is one
    whose failed [openat] reports a non-zero error number. *)
Theorem handle_ids_strictly_increasing (fs : asymmetricfs.t) (h : H)
    (ops : list op) :
  0 <= asymmetricfs.next_ fs ->
  StronglySorted Z.lt (assigned_ids fs h ops)
  /\ Forall (fun id => 0 <= id) (assigned_ids fs h ops)
  /\ NoDup (assigned_ids fs h ops).
Proof.
  intros Hnext. rewrite assigned_ids_seq.
  generalize (asymmetricfs.next_ fs) Hnext.
  induction (length (assigned_ids fs h ops)) as [|n IH]; intros m Hm.
  - simpl. repeat constructor.
  - replace (Z.of_nat (S n)) with (1 + Z.of_nat n) by lia.
    rewrite seqZ_app by lia.
    change (seqZ m 1) with [m]. simpl.
    destruct (IH (m + 1)) as (Hsorted & Hpos & Hnodup); [lia|].
    split; [|split].
    + constructor; [done|].
      apply Forall_forall. intros x Hx.
      apply elem_of_seqZ in Hx. lia.
    + constructor; [done|done].
    + constructor; [|done].
      intros Hin. apply elem_of_seqZ in Hin. lia.
Qed.

End handle_ids.

Lemma simple_openat_errno (h : SimpleHost.t) path flags mode h' errno :
  sys_openat h path flags mode = (h', Err errno) -> errno <> 0.
Proof.
  simpl. unfold SimpleHost.openat, SimpleHost.alloc. intros Hopen.
  repeat case_match; simplify_eq; done.
Qed.

(** Two files are created, the first is opened again (which assigns
    nothing), an open of a missing file fails, a third file is created. *)
Lemma handle_ids_strictly_increasing_witness :
  0 <= asymmetricfs.next_ rw_mount
  /\ assigned_ids rw_mount SimpleHost.empty
       [OpCreate "/a" 384 (info0 O_RDWR);
        OpCreate "/b" 384 (info0 O_WRONLY);
        OpOpen "/a" (info0 O_RDONLY);
        OpOpen "/missing" (info0 O_RDONLY);
        OpRelease (handle 0);
        OpCreate "/c" 384 (info0 O_RDWR)]
     = [0; 1; 2]
  /\ StronglySorted Z.lt [0; 1; 2]
  /\ Forall (fun id => 0 <= id) [0; 1; 2]
  /\ NoDup [0; 1; 2].
Proof.
  assert (H1 : 0 <= asymmetricfs.next_ rw_mount) by (vm_compute; discriminate).
  assert (H2 : assigned_ids rw_mount SimpleHost.empty
                 [OpCreate "/a" 384 (info0 O_RDWR);
                  OpCreate "/b" 384 (info0 O_WRONLY);
                  OpOpen "/a" (info0 O_RDONLY);
                  OpOpen "/missing" (info0 O_RDONLY);
                  OpRelease (handle 0);
                  OpCreate "/c" 384 (info0 O_RDWR)]
               = [0; 1; 2]) by (vm_compute; reflexivity).
  split; [exact H1|]. split; [exact H2|].
  rewrite <- H2.
  exact (handle_ids_strictly_increasing simple_openat_errno _ _ _ H1).
Defined.

(** ** The invariant [dirty ⇒ buffer_set] *)

Section dirty_inv.
Context {H : Type} `{Host H}.

(** Failed [fstat] and [mmap] calls report an error number, never 0. *)
Hypothesis fstat_errno : forall (h : H) fd errno,
  sys_fstat h fd = Err errno -> errno <> 0.
Hypothesis mmap_errno : forall (h : H) fd len errno,
  sys_mmap h fd len = Err errno -> errno <> 0.

Lemma load_blocks_flags (fuel : nat) (underlying : list byte) (fd_size : Z) :
  forall h s ret offset h' s' ret',
    internal.load_blocks fuel underlying fd_size h s ret offset
    = Some (h', s', ret') ->
    internal.dirty s' = internal.dirty s
    /\ (ret' = 0 ->
        ret = 0
        /\ (internal.buffer_set s = true -> internal.buffer_set s' = true)).
Proof.
  induction fuel as [|fuel IH]; simpl; intros h s ret offset h' s' ret' Hload.
  - destruct (offset <? fd_size); now simplify_eq.
  - destruct (offset <? fd_size); [|now simplify_eq].
    destruct (internal.find_terminator _ _ _) as [new_offset|]; [|done].
    destruct (negb (_ && _)); [done|].
    destruct (negb _ && _); [now simplify_eq|].
    destruct (sys_gpg_decrypt h _) as [h1 o].
    destruct (internal.communicate (internal.buffer s) o ret)
      as [buf1 ret1] eqn:Hcomm.
    destruct (negb (out_wait o =? 0)).
    + simplify_eq. split; [done|]. intros Hio. discriminate Hio.
    + apply IH in Hload as [Hdirty Hset]. split; [done|].
      intros Hret'. destruct (Hset Hret') as [Hret1 Hkeep].
      split; [|done].
      unfold internal.communicate in Hcomm.
      destruct (Z.eqb_spec (out_cret o) 0); simplify_eq; [done|lia].
Qed.

Lemma load_buffer_flags (h : H) (s : internal.t) h' s' ret :
  internal.load_buffer h s = Some (h', s', ret) ->
  (internal.buffer_set s = true -> s' = s)
  /\ (internal.buffer_set s = false -> internal.dirty s' = false)
  /\ (ret = 0 -> internal.buffer_set s' = true).
Proof.
  unfold internal.load_buffer. intros Hload.
  destruct (internal.buffer_set s) eqn:Hset.
  { simplify_eq. done. }
  split; [done|].
  destruct (negb (internal.open_ s)); [done|].
  destruct (sys_fstat h (internal.fd s)) as [fd_stat|errno] eqn:Hfstat.
  - destruct (st_size fd_stat <=? 0).
    { simplify_eq. done. }
    destruct (sys_mmap h (internal.fd s) (st_size fd_stat))
      as [underlying|errno] eqn:Hmmap.
    + apply load_blocks_flags in Hload as [Hdirty Hok]. simpl in *.
      split; [done|]. intros ->. now apply Hok.
    + simplify_eq. apply mmap_errno in Hmmap. done.
  - simplify_eq. apply fstat_errno in Hfstat. done.
Qed.

Lemma load_buffer_known_if_dirty (h : H) (s : internal.t) h' s' ret :
  internal.load_buffer h s = Some (h', s', ret) ->
  known_if_dirty s -> known_if_dirty s'.
Proof.
  intros Hload Hs. apply load_buffer_flags in Hload as (Hsame & Hclean & _).
  destruct (internal.buffer_set s) eqn:Hset.
  - now rewrite Hsame.
  - intros Hdirty. rewrite Hclean in Hdirty; done.
Qed.

Lemma dirty_inv_store (fs : asymmetricfs.t) (id : Z) (s : internal.t) :
  dirty_inv fs -> known_if_dirty s ->
  dirty_inv (asymmetricfs.set_open_fds_
               (<[id:=s]> (asymmetricfs.open_fds_ fs)) fs).
Proof. intros Hfs Hs. now apply map_Forall_insert_2. Qed.

Lemma dirty_inv_register (fs : asymmetricfs.t) path (data : internal.t) :
  dirty_inv fs -> known_if_dirty data ->
  dirty_inv (asymmetricfs.register fs path data).2.
Proof.
  intros Hfs Hs. unfold dirty_inv, asymmetricfs.register,
    asymmetricfs.map_insert. simpl.
  destruct (asymmetricfs.open_fds_ fs !! asymmetricfs.next_ fs); [done|].
  now apply map_Forall_insert_2.
Qed.

Ltac registered :=
  match goal with
  | Hreg : asymmetricfs.register ?fs ?p ?d = (_, ?fs') |- dirty_inv ?fs' =>
      replace fs' with (asymmetricfs.register fs p d).2 by (now rewrite Hreg);
      apply dirty_inv_register; [assumption | done]
  end.

Lemma dirty_inv_lookup (fs : asymmetricfs.t) (id : Z) (s : internal.t) :
  dirty_inv fs -> asymmetricfs.open_fds_ fs !! id = Some s -> known_if_dirty s.
Proof. intros Hfs Hs. exact (Hfs id s Hs). Qed.

Lemma create_dirty_inv fs h path mode info fs' h' ret info' :
  asymmetricfs.create fs h path mode info = Some (fs', h', ret, info') ->
  dirty_inv fs -> dirty_inv fs'.
Proof.
  unfold asymmetricfs.create. intros Hc Hfs.
  repeat case_match; simplify_eq; try done; registered.
Qed.

Lemma open_dirty_inv fs h path info fs' h' ret info' :
  asymmetricfs.open fs h path info = Some (fs', h', ret, info') ->
  dirty_inv fs -> dirty_inv fs'.
Proof.
  unfold asymmetricfs.open. intros Ho Hfs.
  destruct (asymmetricfs.open_paths_ fs !! path) as [id|].
  - destruct (asymmetricfs.open_fds_ fs !! id) as [s|] eqn:Hs; [|done].
    simplify_eq. apply dirty_inv_store; [done|].
    exact (dirty_inv_lookup fs id s Hfs Hs).
  - repeat case_match; simplify_eq; try done; registered.
Qed.

Lemma read_dirty_inv fs h size offset info fs' h' ret out :
  asymmetricfs.read fs h size offset info = Some (fs', h', ret, out) ->
  dirty_inv fs -> dirty_inv fs'.
Proof.
  unfold asymmetricfs.read. intros Hr Hfs.
  destruct (asymmetricfs.open_fds_ fs !! fuse_file_info.fh info) as [s|] eqn:Hs;
    [|now simplify_eq].
  pose proof (dirty_inv_lookup fs _ s Hfs Hs) as Hknown.
  destruct (offset <? 0); [now simplify_eq|].
  destruct (negb (asymmetricfs.read_ fs)).
  { repeat case_match; now simplify_eq. }
  destruct (internal.load_buffer h s) as [[[h1 s1] ret1]|] eqn:Hload; [|done].
  pose proof (load_buffer_known_if_dirty _ _ _ _ _ Hload Hknown).
  repeat case_match; simplify_eq; now apply dirty_inv_store.
Qed.

Lemma write_dirty_inv fs (h : H) data offset info fs' h' ret :
  asymmetricfs.write fs h data offset info = Some (fs', h', ret) ->
  known fs (fuse_file_info.fh info) = true ->
  dirty_inv fs -> dirty_inv fs'.
Proof.
  unfold asymmetricfs.write, known. intros Hw Hknown Hfs.
  destruct (asymmetricfs.open_fds_ fs !! fuse_file_info.fh info) as [s|] eqn:Hs;
    [|now simplify_eq].
  repeat case_match; simplify_eq; try done.
  apply dirty_inv_store; [done|]. intros _. exact Hknown.
Qed.

Lemma truncatefd_dirty_inv fs h fd offset fs' h' ret :
  asymmetricfs.truncatefd fs h fd offset = Some (fs', h', ret) ->
  (offset = 0 -> known fs fd = true) ->
  dirty_inv fs -> dirty_inv fs'.
Proof.
  unfold asymmetricfs.truncatefd, known. intros Ht Hknown Hfs.
  destruct (asymmetricfs.open_fds_ fs !! fd) as [s|] eqn:Hs;
    [|now simplify_eq].
  pose proof (dirty_inv_lookup fs _ s Hfs Hs) as Hs_inv.
  destruct (offset <? 0); [now simplify_eq|].
  destruct (Z.eqb_spec offset 0) as [->|Hpos].
  { repeat case_match; simplify_eq; try done.
    apply dirty_inv_store; [done|]. intros _. now apply Hknown. }
  destruct (asymmetricfs.read_ fs); [|now simplify_eq].
  destruct (internal.load_buffer h s) as [[[h1 s1] ret1]|] eqn:Hload; [|done].
  pose proof (load_buffer_known_if_dirty _ _ _ _ _ Hload Hs_inv).
  apply load_buffer_flags in Hload as (_ & _ & Hok).
  destruct (Z.eqb_spec ret1 0) as [->|Hret]; simpl in Ht; simplify_eq.
  - apply dirty_inv_store; [done|]. intros _. simpl. now apply Hok.
  - now apply dirty_inv_store.
Qed.

Lemma truncate_dirty_inv fs h path offset uninit fs' h' ret :
  asymmetricfs.truncate fs h path offset uninit = Some (fs', h', ret) ->
  (offset = 0 ->
   forall id, asymmetricfs.open_paths_ fs !! path = Some id ->
              known fs id = true) ->
  dirty_inv fs -> dirty_inv fs'.
Proof.
  unfold asymmetricfs.truncate. intros Ht Hknown Hfs.
  destruct (offset <? 0); [now simplify_eq|].
  destruct (asymmetricfs.open_paths_ fs !! path) as [id|] eqn:Hid.
  - apply (truncatefd_dirty_inv _ _ _ _ _ _ _ Ht); [|done].
    intros Hzero. now apply Hknown.
  - repeat case_match; now simplify_eq.
Qed.

Lemma release_dirty_inv fs h info fs' h' ret :
  asymmetricfs.release fs h info = Some (fs', h', ret) ->
  dirty_inv fs -> dirty_inv fs'.
Proof.
  unfold asymmetricfs.release. intros Hr Hfs.
  destruct (asymmetricfs.open_fds_ fs !! fuse_file_info.fh info) as [s|] eqn:Hs;
    [|now simplify_eq].
  pose proof (dirty_inv_lookup fs _ s Hfs Hs) as Hs_inv.
  repeat case_match; simplify_eq.
  - unfold dirty_inv. simpl. now apply map_Forall_delete.
  - now apply dirty_inv_store.
Qed.

Lemma rename_dirty_inv fs h oldpath newpath fs' h' ret :
  asymmetricfs.rename fs h oldpath newpath = Some (fs', h', ret) ->
  dirty_inv fs -> dirty_inv fs'.
Proof.
  unfold asymmetricfs.rename. intros Hr Hfs.
  repeat case_match; simplify_eq; try done.
  unfold dirty_inv. simpl. apply map_Forall_insert_2; [|done].
  match goal with Hs : asymmetricfs.open_fds_ fs !! _ = Some ?s |- _ =>
    exact (dirty_inv_lookup fs _ s Hfs Hs) end.
Qed.

Lemma statfd_dirty_inv fs h fd buf fs' h' ret st :
  asymmetricfs.statfd fs h fd buf = Some (fs', h', ret, st) ->
  dirty_inv fs -> dirty_inv fs'.
Proof.
  unfold asymmetricfs.statfd. intros Hst Hfs.
  destruct (negb buf); [now simplify_eq|].
  destruct (asymmetricfs.open_fds_ fs !! fd) as [s|] eqn:Hs; [|now simplify_eq].
  pose proof (dirty_inv_lookup fs _ s Hfs Hs) as Hs_inv.
  destruct (sys_fstat h (internal.fd s)); [|now simplify_eq].
  destruct (asymmetricfs.read_ fs).
  - destruct (internal.load_buffer h s) as [[[h1 s1] ret1]|] eqn:Hload; [|done].
    pose proof (load_buffer_known_if_dirty _ _ _ _ _ Hload Hs_inv).
    repeat case_match; simplify_eq; now apply dirty_inv_store.
  - repeat case_match; simplify_eq; now apply dirty_inv_store.
Qed.

Lemma step_dirty_inv fs h o fs' h' r :
  step fs h o = Some (fs', h', r) ->
  guarded fs o = true -> dirty_inv fs -> dirty_inv fs'.
Proof.
  destruct o; simpl; intros Hstep Hguard Hfs.
  - destruct (asymmetricfs.create _ _ _ _ _) as [[[[] ?] ?]|] eqn:Hop;
      simpl in Hstep; simplify_eq. eauto using create_dirty_inv.
  - destruct (asymmetricfs.open _ _ _ _) as [[[[] ?] ?]|] eqn:Hop;
      simpl in Hstep; simplify_eq. eauto using open_dirty_inv.
  - destruct (asymmetricfs.read _ _ _ _ _) as [[[[] ?] ?]|] eqn:Hop;
      simpl in Hstep; simplify_eq. eauto using read_dirty_inv.
  - destruct (asymmetricfs.write _ _ _ _ _) as [[[] ?]|] eqn:Hop;
      simpl in Hstep; simplify_eq. eauto using write_dirty_inv.
  - destruct (asymmetricfs.truncate _ _ _ _ _) as [[[] ?]|] eqn:Hop;
      simpl in Hstep; simplify_eq.
    apply (truncate_dirty_inv _ _ _ _ _ _ _ _ Hop); [|done].
    intros -> id Hid. now rewrite Hid in Hguard.
  - destruct (asymmetricfs.ftruncate _ _ _ _) as [[[] ?]|] eqn:Hop;
      simpl in Hstep; simplify_eq.
    unfold asymmetricfs.ftruncate in Hop.
    apply (truncatefd_dirty_inv _ _ _ _ _ _ _ Hop); [|done].
    now intros ->.
  - destruct (asymmetricfs.release _ _ _) as [[[] ?]|] eqn:Hop;
      simpl in Hstep; simplify_eq. eauto using release_dirty_inv.
  - destruct (asymmetricfs.rename _ _ _ _) as [[[] ?]|] eqn:Hop;
      simpl in Hstep; simplify_eq. eauto using rename_dirty_inv.
  - destruct (asymmetricfs.getattr _ _ _ _) as [[[[] ?] ?]|] eqn:Hop;
      simpl in Hstep; simplify_eq.
    unfold asymmetricfs.getattr in Hop.
    destruct (asymmetricfs.open_paths_ fs !! path);
      [eauto using statfd_dirty_inv|].
    repeat case_match; now simplify_eq.
  - destruct (asymmetricfs.fgetattr _ _ _ _) as [[[[] ?] ?]|] eqn:Hop;
      simpl in Hstep; simplify_eq.
    unfold asymmetricfs.fgetattr in Hop. eauto using statfd_dirty_inv.
  - now simplify_eq.
  - now simplify_eq.
Qed.

(** C2, as amended.  From a mount on which every dirty state has a known
    buffer, a sequence of callbacks reaches such a mount again after each
    callback, as long as each [write] and each truncation to length zero in
    it addresses a state whose buffer is known (as it is after [create],
    and after [open] of an empty file); [open], [create], [read],
    [rename], [release], the attribute calls and the truncations to a
    positive length need no such condition.  The host is one whose failed
    [fstat] and [mmap] report a non-zero error number. *)
Theorem dirty_implies_buffer_set (ops : list op) :
  forall (fs : asymmetricfs.t) (h : H),
    dirty_inv fs ->
    guarded_run fs h ops = true ->
    Forall dirty_inv (mounts_after fs h ops).
Proof.
  induction ops as [|o ops IH]; simpl; intros fs h Hfs Hguard.
  - constructor.
  - apply andb_true_iff in Hguard as [Hguard Hrest].
    destruct (step fs h o) as [[[fs1 h1] r]|] eqn:Hstep; [|constructor].
    assert (dirty_inv fs1) by eauto using step_dirty_inv.
    constructor; [done|]. now apply IH.
Qed.

End dirty_inv.

Lemma simple_fstat_errno (h : SimpleHost.t) fd errno :
  sys_fstat h fd = Err errno -> errno <> 0.
Proof.
  simpl. unfold SimpleHost.fstat. intros Hfstat.
  repeat case_match; simplify_eq; done.
Qed.

Lemma simple_mmap_errno (h : SimpleHost.t) fd len errno :
  sys_mmap h fd len = Err errno -> errno <> 0.
Proof.
  simpl. unfold SimpleHost.mmap. intros Hmmap.
  repeat case_match; simplify_eq; done.
Qed.

Lemma dirty_inv_empty (fs : asymmetricfs.t) :
  asymmetricfs.open_fds_ fs = ∅ -> dirty_inv fs.
Proof. unfold dirty_inv. intros ->. apply map_Forall_empty. Qed.

Lemma dirty_implies_buffer_set_witness :
  dirty_inv rw_mount
  /\ guarded_run rw_mount SimpleHost.empty guarded_ops = true
  /\ length (mounts_after rw_mount SimpleHost.empty guarded_ops) = 8%nat
  /\ (asymmetricfs.open_fds_
        <$> last (mounts_after rw_mount SimpleHost.empty guarded_ops))
     = Some {[0 := internal.mk 3 (Z.lor O_CREAT O_RDWR) 1 "/moved" true true
                     (bytes "abc") true]}
  /\ Forall dirty_inv (mounts_after rw_mount SimpleHost.empty guarded_ops).
Proof.
  assert (H1 : dirty_inv rw_mount) by now apply dirty_inv_empty.
  assert (H2 : guarded_run rw_mount SimpleHost.empty guarded_ops = true)
    by (vm_compute; reflexivity).
  split; [exact H1|]. split; [exact H2|].
  split; [vm_compute; reflexivity|]. split; [vm_compute; reflexivity|].
  exact (dirty_implies_buffer_set simple_fstat_errno simple_mmap_errno
           guarded_ops rw_mount SimpleHost.empty H1 H2).
Defined.

(** C2, the claim as stated fails.  The append scenario of the test suite
    (a file is written and released, then opened again with O_APPEND and
    written) leaves the state dirty with its buffer unknown; so does
    cutting an open, non-empty file to length zero. *)
Lemma dirty_without_buffer_set_counterexample :
  dirty_inv rw_mount
  /\ (exists fs h rs,
        run rw_mount SimpleHost.empty
          [OpCreate "/test" 384 (info0 (Z.lor O_CREAT O_RDWR));
           OpWrite (bytes "abcdefg") 0 (handle 0);
           OpRelease (handle 0);
           OpOpen "/test" (info0 (Z.lor O_APPEND O_WRONLY));
           OpWrite (bytes "hijklmn") 0 (handle 1)]
        = Some (fs, h, rs)
        /\ (internal.dirty <$> asymmetricfs.open_fds_ fs !! 1) = Some true
        /\ (internal.buffer_set <$> asymmetricfs.open_fds_ fs !! 1)
           = Some false
        /\ ~ dirty_inv fs)
  /\ (exists fs h rs,
        run rw_mount (host_x (bytes "secret"))
          [OpOpen "/x" (info0 O_RDWR); OpFtruncate 0 (handle 0)]
        = Some (fs, h, rs)
        /\ (internal.dirty <$> asymmetricfs.open_fds_ fs !! 0) = Some true
        /\ (internal.buffer_set <$> asymmetricfs.open_fds_ fs !! 0)
           = Some false
        /\ ~ dirty_inv fs).
Proof.
  split; [now apply dirty_inv_empty|]. split.
  - eexists _, _, _. split; [vm_compute; reflexivity|].
    split; [reflexivity|]. split; [reflexivity|].
    intros Hinv. specialize (Hinv 1 _ eq_refl eq_refl). discriminate Hinv.
  - eexists _, _, _. split; [vm_compute; reflexivity|].
    split; [reflexivity|]. split; [reflexivity|].
    intros Hinv. specialize (Hinv 0 _ eq_refl eq_refl). discriminate Hinv.
Qed.

(** ** Handles on one path *)

Lemma copy_out_all (b : list byte) : copy_out b 0 (buf_size b) = b.
Proof.
  unfold copy_out, buf_size. simpl. rewrite drop_0, Nat2Z.id.
  apply firstn_all.
Qed.

Section shared_state.
Context {H : Type} `{Host H}.
Variables (fs : asymmetricfs.t) (h : H) (path : string).
Variables (info : fuse_file_info.t) (id : Z) (s : internal.t).

(** C3, as amended.  The path table holds at most one handle id for a
    path, and an [open] of a path that has an entry returns that id,
    whatever flags it is given, after incrementing the reference count of
    the entry's state; it calls neither the host nor the cipher.  The two
    handles therefore denote one state, and when the buffer of that state
    is known a write through the first handle is seen by a read through
    the second: read from offset 0 with room for the whole buffer, it
    returns the buffer with the written bytes in place. *)
Theorem open_shares_state :
  asymmetricfs.open_paths_ fs !! path = Some id ->
  asymmetricfs.open_fds_ fs !! id = Some s ->
  let s1 := internal.set_references
              (to_unsigned (internal.references s + 1)) s in
  let fs1 := asymmetricfs.set_open_fds_
               (<[id:=s1]> (asymmetricfs.open_fds_ fs)) fs in
  let info1 := fuse_file_info.set_fh id info in
  asymmetricfs.open fs h path info = Some (fs1, h, 0, info1)
  /\ (0 <= internal.references s -> internal.references s + 1 < 2 ^ 32 ->
      internal.references s1 = internal.references s + 1)
  /\ forall (first : fuse_file_info.t) (data : list byte) (offset size : Z),
       fuse_file_info.fh first = id ->
       internal.buffer_set s = true ->
       data <> [] ->
       0 <= offset <= OFF_MAX ->
       buf_size data <= INT_MAX ->
       let buf :=
         memcpy_at
           (resize (Z.max (buf_size (internal.buffer s))
                      (offset + buf_size data)) (internal.buffer s))
           offset data in
       buf_size buf <= size < INT_MAX ->
       exists fs2,
         asymmetricfs.write fs1 h data offset first
         = Some (fs2, h, buf_size data)
         /\ asymmetricfs.read fs2 h size 0 info1
            = Some (fs2, h, buf_size buf, buf)
         /\ copy_out buf offset (buf_size data) = data.
Proof.
  intros Hpath Hs s1 fs1 info1. split; [|split].
  - unfold asymmetricfs.open. now rewrite Hpath, Hs.
  - intros Hlow Hhigh. simpl. apply to_unsigned_id. lia.
  - intros first data offset size Hfirst Hset Hdata Hoff Hlen buf Hsize.
    assert (Hs1 : asymmetricfs.open_fds_ fs1 !! fuse_file_info.fh first
                  = Some s1).
    { rewrite Hfirst. simpl. apply lookup_insert_eq. }
    destruct (write_contract fs1 h first s1 data offset Hs1 (proj2 Hoff) Hlen)
      as (_ & _ & Hw).
    destruct Hw as (Hw & Hbuf & Hcopy & _); [|lia|].
    { intros Hzero. now apply buf_size_zero in Hzero. }
    eexists. split; [exact Hw|]. split; [|exact Hcopy].
    set (s2 := internal.set_dirty true (internal.set_buffer _ s1)) in *.
    set (fs2 := asymmetricfs.set_open_fds_ _ fs1) in *.
    assert (Hs2 : asymmetricfs.open_fds_ fs2 !! fuse_file_info.fh info1
                  = Some s2).
    { simpl. rewrite Hfirst. apply lookup_insert_eq. }
    pose proof (buf_size_nonneg (internal.buffer s2)) as Hnn.
    change (internal.buffer s1) with (internal.buffer s) in *.
    change (internal.buffer s2) with buf in *.
    destruct (asymmetricfs.read_ fs2) eqn:Hmode.
    + rewrite (read_read_enabled_known fs2 h info1 s2 Hs2 size 0 Hmode Hset)
        by lia.
      change (internal.buffer s2) with buf.
      replace (Z.max 0 (Z.min (buf_size buf - 0) size)) with (buf_size buf)
        by lia.
      now rewrite copy_out_all.
    + rewrite (read_write_only_known fs2 h info1 s2 Hs2 size 0 Hmode Hset)
        by lia.
      change (internal.buffer s2) with buf.
      replace (Z.max 0 (Z.min (buf_size buf - 0) size)) with (buf_size buf)
        by lia.
      now rewrite copy_out_all.
Qed.

End shared_state.

(** The two-handle scenario of the test suite: the file is open with a
    known buffer, a second handle is opened read-only, "XYZ" is written at
    offset 5 through the first and read back through the second. *)
Lemma open_shares_state_witness :
  asymmetricfs.open_paths_ (one_file true (bytes "abcdefg")) !! "/test"%string
  = Some 0
  /\ asymmetricfs.open_fds_ (one_file true (bytes "abcdefg")) !! 0
     = Some (internal.mk 3 (Z.lor O_CREAT O_RDWR) 1 "/test" true false
               (bytes "abcdefg") true)
  /\ asymmetricfs.open (one_file true (bytes "abcdefg")) SimpleHost.empty
       "/test" (info0 O_RDONLY)
     = Some (asymmetricfs.mk true 1 {["/test"%string := 0]}
               {[0 := internal.mk 3 (Z.lor O_CREAT O_RDWR) 2 "/test" true
                        false (bytes "abcdefg") true]}
               ["0xTESTKEY"%string],
             SimpleHost.empty, 0, fuse_file_info.mk O_RDONLY 0)
  /\ exists fs2,
       asymmetricfs.write
         (asymmetricfs.mk true 1 {["/test"%string := 0]}
            {[0 := internal.mk 3 (Z.lor O_CREAT O_RDWR) 2 "/test" true
                     false (bytes "abcdefg") true]}
            ["0xTESTKEY"%string])
         SimpleHost.empty (bytes "XYZ") 5 (handle 0)
       = Some (fs2, SimpleHost.empty, 3)
       /\ asymmetricfs.read fs2 SimpleHost.empty 65536 0
            (fuse_file_info.mk O_RDONLY 0)
          = Some (fs2, SimpleHost.empty, 8, bytes "abcdeXYZ").
Proof.
  assert (H1 : asymmetricfs.open_paths_ (one_file true (bytes "abcdefg"))
                 !! "/test"%string = Some 0) by reflexivity.
  assert (H2 : asymmetricfs.open_fds_ (one_file true (bytes "abcdefg")) !! 0
               = Some (internal.mk 3 (Z.lor O_CREAT O_RDWR) 1 "/test" true
                         false (bytes "abcdefg") true)) by reflexivity.
  split; [exact H1|]. split; [exact H2|].
  destruct (open_shares_state (one_file true (bytes "abcdefg"))
              SimpleHost.empty "/test" (info0 O_RDONLY) 0 _ H1 H2)
    as (Hopen & _ & Hvisible).
  split.
  - rewrite Hopen. vm_compute. reflexivity.
  - assert (Hd : bytes "XYZ" <> []) by (vm_compute; discriminate).
    assert (Ho : 0 <= 5 <= OFF_MAX) by (vm_compute; split; discriminate).
    assert (Hl : buf_size (bytes "XYZ") <= INT_MAX)
      by (vm_compute; discriminate).
    specialize (Hvisible (handle 0) (bytes "XYZ") 5 65536 eq_refl eq_refl
                  Hd Ho Hl).
    destruct Hvisible as (fs2 & Hw & Hr & _).
    { vm_compute. split; [discriminate | reflexivity]. }
    assert (Hfs2 : Some (fs2, SimpleHost.empty, buf_size (bytes "XYZ"))
                   = Some (asymmetricfs.mk true 1 {["/test"%string := 0]}
                             {[0 := internal.mk 3 (Z.lor O_CREAT O_RDWR) 2
                                      "/test" true true (bytes "abcdeXYZ")
                                      true]}
                             ["0xTESTKEY"%string],
                           SimpleHost.empty, 3))
      by (rewrite <- Hw; vm_compute; reflexivity).
    injection Hfs2 as ->.
    eexists. split.
    + etransitivity; [exact Hw | reflexivity].
    + etransitivity; [exact Hr | vm_compute; reflexivity].
Defined.

(** C3, the claim as stated fails.  In read/write mode the existing file
    ["/x"] is opened twice (both calls return handle 0); "NEW" is written
    through the handle and the read that follows returns the old contents,
    "secret": the buffer was not known, so [read] loaded it from the
    backing file and dropped the written bytes.  And [create] does not
    consult the path table: two calls for one path make two states, and
    the bytes written to the first are not seen through the second. *)
Lemma shared_state_counterexample :
  replies (run rw_mount (host_x (bytes "secret"))
             [OpOpen "/x" (info0 O_RDWR);
              OpOpen "/x" (info0 O_RDONLY);
              OpWrite (bytes "NEW") 0 (handle 0);
              OpRead 16 0 (handle 0)])
  = Some [RInfo 0 (fuse_file_info.mk O_RDWR 0);
          RInfo 0 (fuse_file_info.mk O_RDONLY 0);
          RInt 3;
          RData 6 (bytes "secret")]
  /\ replies (run rw_mount SimpleHost.empty
                [OpCreate "/y" 384 (info0 O_RDWR);
                 OpCreate "/y" 384 (info0 O_RDWR);
                 OpWrite (bytes "NEW") 0 (handle 0);
                 OpRead 16 0 (handle 1)])
     = Some [RInfo 0 (fuse_file_info.mk (Z.lor O_RDWR O_CREAT) 0);
             RInfo 0 (fuse_file_info.mk (Z.lor O_RDWR O_CREAT) 1);
             RInt 3;
             RData 0 []].
Proof. split; vm_compute; reflexivity. Qed.

(** * Further properties *)

(** ** [make_rdwr] *)

Lemma testbit_small (c i : Z) : 0 <= c < 4 -> 2 <= i -> Z.testbit c i = false.
Proof.
  intros Hc Hi. destruct (Z.eq_dec c 0) as [->|]; [apply Z.bits_0|].
  apply Z.bits_above_log2; [lia|].
  assert (Z.log2 c < 2); [|lia].
  apply Z.log2_lt_pow2; lia.
Qed.

(** X1.  In read/write mode every open reaches the host with access mode
    O_RDWR, whatever mode was asked for (the test [flags & O_RDONLY] is
    never true, O_RDONLY being 0), and with every other flag bit as it
    was; applying [make_rdwr] again changes nothing. *)
Theorem make_rdwr_read_mode (fs : asymmetricfs.t) (flags : Z) :
  asymmetricfs.read_ fs = true ->
  Z.land (asymmetricfs.make_rdwr fs flags) O_ACCMODE = O_RDWR
  /\ Z.land (asymmetricfs.make_rdwr fs flags) (Z.lnot O_ACCMODE)
     = Z.land flags (Z.lnot O_ACCMODE)
  /\ asymmetricfs.make_rdwr fs (asymmetricfs.make_rdwr fs flags)
     = asymmetricfs.make_rdwr fs flags.
Proof.
  intros Hrw.
  assert (Hform : forall f, asymmetricfs.make_rdwr fs f
                            = Z.lor (Z.land f (Z.lnot O_WRONLY)) O_RDWR).
  { intros f. unfold asymmetricfs.make_rdwr, has_flag. rewrite Hrw. simpl.
    unfold O_RDONLY. rewrite Z.land_0_r. simpl.
    change (Z.lnot 0) with (-1). now rewrite Z.land_m1_r. }
  assert (Hbits : forall f i, 0 <= i ->
            Z.testbit (asymmetricfs.make_rdwr fs f) i
            = if i =? 0 then false else if i =? 1 then true
              else Z.testbit f i).
  { intros f i Hi. rewrite Hform, Z.lor_spec, Z.land_spec. rewrite Z.lnot_spec by exact Hi.
    unfold O_WRONLY, O_RDWR.
    destruct (Z.eqb_spec i 0) as [->|]; [now rewrite andb_false_r|].
    destruct (Z.eqb_spec i 1) as [->|]; [now rewrite orb_true_r|].
    rewrite (testbit_small 1), (testbit_small 2) by lia. simpl.
    now rewrite andb_true_r, orb_false_r. }
  split; [|split]; apply Z.bits_inj'; intros i Hi.
  - rewrite Z.land_spec, Hbits by exact Hi. unfold O_ACCMODE, O_RDWR.
    destruct (Z.eqb_spec i 0) as [->|]; [done|].
    destruct (Z.eqb_spec i 1) as [->|]; [done|].
    rewrite (testbit_small 3), (testbit_small 2) by lia. apply andb_false_r.
  - rewrite !Z.land_spec, Hbits by exact Hi. rewrite Z.lnot_spec by exact Hi. unfold O_ACCMODE.
    destruct (Z.eqb_spec i 0) as [->|]; [simpl; now rewrite ?andb_false_r|].
    destruct (Z.eqb_spec i 1) as [->|]; [simpl; now rewrite ?andb_false_r|].
    done.
  - rewrite !Hbits by exact Hi.
    destruct (Z.eqb_spec i 0); [done|]. now destruct (Z.eqb_spec i 1).
Qed.

Lemma make_rdwr_read_mode_witness :
  asymmetricfs.read_ rw_mount = true
  /\ asymmetricfs.make_rdwr rw_mount (Z.lor O_APPEND O_WRONLY)
     = Z.lor O_APPEND O_RDWR
  /\ Z.land (asymmetricfs.make_rdwr rw_mount O_RDONLY) O_ACCMODE = O_RDWR.
Proof.
  split; [reflexivity|]. split; [reflexivity|].
  exact (proj1 (make_rdwr_read_mode rw_mount O_RDONLY eq_refl)).
Defined.

(** ** [create] *)

Section create.
Context {H : Type} `{Host H}.


End create.


(** ** [open] and [release] together *)

Section open_release.
Context {H : Type} `{Host H}.

(** X3.  Opening a path that has an entry and releasing the handle obtained
    leaves the mount and the host exactly as they were: the reference
    count goes up by one and down again, and neither call touches the
    host.  (The count is below the top of [unsigned].) *)
Theorem open_then_release (fs : asymmetricfs.t) (h : H) (path : string)
    (info : fuse_file_info.t) (id : Z) (s : internal.t) :
  asymmetricfs.open_paths_ fs !! path = Some id ->
  asymmetricfs.open_fds_ fs !! id = Some s ->
  1 <= internal.references s < 2 ^ 32 - 1 ->
  exists fs1 info1,
    asymmetricfs.open fs h path info = Some (fs1, h, 0, info1)
    /\ fuse_file_info.fh info1 = id
    /\ asymmetricfs.release fs1 h info1 = Some (fs, h, 0).
Proof.
  intros Hpath Hs Hrefs.
  unfold asymmetricfs.open. rewrite Hpath, Hs.
  eexists _, _. split; [reflexivity|]. split; [reflexivity|].
  unfold asymmetricfs.release. simpl. rewrite lookup_insert_eq. simpl.
  rewrite (to_unsigned_id (internal.references s + 1)) by lia.
  replace (internal.references s + 1 - 1) with (internal.references s) by lia.
  rewrite to_unsigned_id by lia.
  destruct (Z.eqb_spec (internal.references s) 0); [lia|].
  rewrite insert_insert_eq.
  replace (internal.set_references (internal.references s)
             (internal.set_references (internal.references s + 1) s))
    with s by now destruct s.
  rewrite insert_id by done. now destruct fs.
Qed.

End open_release.

Lemma open_then_release_witness :
  asymmetricfs.open_paths_ (one_file false (bytes "abc")) !! "/test"%string
  = Some 0
  /\ asymmetricfs.open_fds_ (one_file false (bytes "abc")) !! 0
     = Some (internal.mk 3 (Z.lor O_CREAT O_RDWR) 1 "/test" true false
               (bytes "abc") true)
  /\ 1 <= 1 < 2 ^ 32 - 1
  /\ exists fs1 info1,
       asymmetricfs.open (one_file false (bytes "abc")) SimpleHost.empty
         "/test" (info0 O_WRONLY)
       = Some (fs1, SimpleHost.empty, 0, info1)
       /\ fuse_file_info.fh info1 = 0
       /\ asymmetricfs.release fs1 SimpleHost.empty info1
          = Some (one_file false (bytes "abc"), SimpleHost.empty, 0).
Proof.
  assert (H3 : 1 <= 1 < 2 ^ 32 - 1) by (vm_compute; split; discriminate || reflexivity).
  split; [reflexivity|]. split; [reflexivity|]. split; [exact H3|].
  exact (open_then_release (one_file false (bytes "abc")) SimpleHost.empty
           "/test" (info0 O_WRONLY) 0 _ eq_refl eq_refl H3).
Defined.

(** ** [write] and [read] in write-only mode *)

Section write_only_io.
Context {H : Type} `{Host H}.
Variables (fs : asymmetricfs.t) (h : H) (info : fuse_file_info.t).
Variable s : internal.t.

(** X4.  In write-only mode, bytes written to a state whose buffer is known
    are the bytes a read of the same length at the same offset returns. *)
Theorem write_then_read_write_only (data : list byte) (offset : Z) :
  asymmetricfs.open_fds_ fs !! fuse_file_info.fh info = Some s ->
  asymmetricfs.read_ fs = false ->
  internal.buffer_set s = true ->
  data <> [] ->
  0 <= offset <= OFF_MAX ->
  buf_size data <= INT_MAX ->
  exists fs2,
    asymmetricfs.write fs h data offset info = Some (fs2, h, buf_size data)
    /\ asymmetricfs.read fs2 h (buf_size data) offset info
       = Some (fs2, h, buf_size data, data).
Proof.
  intros Hs Hro Hset Hdata Hoff Hlen.
  pose proof (buf_size_nonneg data) as Hd.
  pose proof (buf_size_nonneg (internal.buffer s)) as Ho.
  assert (Hne : buf_size data <> 0).
  { intros Hzero. now apply buf_size_zero in Hzero. }
  set (new_size := Z.max (buf_size (internal.buffer s))
                     (offset + buf_size data)).
  set (buf := memcpy_at (resize new_size (internal.buffer s)) offset data).
  set (s2 := internal.set_dirty true (internal.set_buffer buf s)).
  set (fs2 := asymmetricfs.set_open_fds_
                (<[fuse_file_info.fh info := s2]> (asymmetricfs.open_fds_ fs))
                fs).
  assert (Hfit : offset + buf_size data
                 <= buf_size (resize new_size (internal.buffer s))).
  { rewrite buf_size_resize; lia. }
  exists fs2. split.
  - unfold asymmetricfs.write. rewrite Hs.
    destruct (Z.eqb_spec (buf_size data) 0); [done|].
    destruct (Z.ltb_spec offset 0); [lia|].
    rewrite (to_size_t_id (offset + buf_size data))
      by (unfold OFF_MAX, INT_MAX in *; lia).
    fold new_size.
    destruct (Z.ltb_spec new_size (offset + buf_size data)); [lia|].
    now rewrite to_int_id by (unfold INT_MAX in *; lia).
  - assert (Hs2 : asymmetricfs.open_fds_ fs2 !! fuse_file_info.fh info
                  = Some s2) by apply lookup_insert_eq.
    rewrite (read_write_only_known fs2 h info s2 Hs2 (buf_size data) offset
               Hro Hset) by lia.
    change (internal.buffer s2) with buf.
    assert (Hbuf : buf_size buf = new_size).
    { unfold buf. rewrite buf_size_memcpy_at by lia.
      apply buf_size_resize. lia. }
    replace (Z.max 0 (Z.min (buf_size buf - offset) (buf_size data)))
      with (buf_size data) by lia.
    unfold buf. now rewrite copy_out_memcpy_at by lia.
Qed.

End write_only_io.

Lemma write_then_read_write_only_witness :
  asymmetricfs.open_fds_ (one_file false (bytes "abcdefg"))
    !! fuse_file_info.fh (handle 0)
  = Some (internal.mk 3 (Z.lor O_CREAT O_RDWR) 1 "/test" true false
            (bytes "abcdefg") true)
  /\ asymmetricfs.read_ (one_file false (bytes "abcdefg")) = false
  /\ bytes "XYZ" <> []
  /\ 0 <= 9 <= OFF_MAX
  /\ buf_size (bytes "XYZ") <= INT_MAX
  /\ exists fs2,
       asymmetricfs.write (one_file false (bytes "abcdefg")) SimpleHost.empty
         (bytes "XYZ") 9 (handle 0)
       = Some (fs2, SimpleHost.empty, 3)
       /\ asymmetricfs.read fs2 SimpleHost.empty 3 9 (handle 0)
          = Some (fs2, SimpleHost.empty, 3, bytes "XYZ").
Proof.
  assert (H3 : bytes "XYZ" <> []) by (vm_compute; discriminate).
  assert (H4 : 0 <= 9 <= OFF_MAX) by (vm_compute; split; discriminate).
  assert (H5 : buf_size (bytes "XYZ") <= INT_MAX) by (vm_compute; discriminate).
  split; [reflexivity|]. split; [reflexivity|]. split; [exact H3|].
  split; [exact H4|]. split; [exact H5|].
  exact (write_then_read_write_only (one_file false (bytes "abcdefg"))
           SimpleHost.empty (handle 0) _ (bytes "XYZ") 9 eq_refl eq_refl
           eq_refl H3 H4 H5).
Defined.

(** ** [ftruncate] to a positive length *)

Section ftruncate_positive.
Context {H : Type} `{Host H}.
Variables (fs : asymmetricfs.t) (h : H) (info : fuse_file_info.t).
Variable s : internal.t.

(** X5.  On a valid handle and for a positive length: in write-only mode
    [ftruncate] is refused with EACCES and nothing changes, even when the
    buffer is known; in read/write mode with a known buffer it returns 0,
    the buffer gets exactly that length, keeping its bytes below it and
    holding NUL bytes beyond its old end, the state becomes dirty, and the
    host is not touched. *)
Theorem ftruncate_positive (offset : Z) :
  asymmetricfs.open_fds_ fs !! fuse_file_info.fh info = Some s ->
  0 < offset ->
  let buf := resize offset (internal.buffer s) in
  (asymmetricfs.read_ fs = false ->
   asymmetricfs.ftruncate fs h offset info = Some (fs, h, - EACCES))
  /\ (asymmetricfs.read_ fs = true -> internal.buffer_set s = true ->
      asymmetricfs.ftruncate fs h offset info
      = Some (asymmetricfs.set_open_fds_
                (<[fuse_file_info.fh info :=
                     internal.set_dirty true (internal.set_buffer buf s)]>
                   (asymmetricfs.open_fds_ fs)) fs,
              h, 0)
      /\ buf_size buf = offset
      /\ forall i : nat,
           (i < Z.to_nat offset)%nat ->
           buf !! i = Some (default x00 (internal.buffer s !! i))).
Proof.
  intros Hs Hpos buf.
  unfold asymmetricfs.ftruncate, asymmetricfs.truncatefd. rewrite Hs.
  destruct (Z.ltb_spec offset 0); [lia|].
  destruct (Z.eqb_spec offset 0); [lia|].
  split.
  - now intros ->.
  - intros -> Hset. unfold internal.load_buffer. rewrite Hset. simpl.
    split; [done|]. split.
    + apply buf_size_resize. lia.
    + intros i Hi. unfold buf. rewrite resize_lookup. now case_decide.
Qed.

End ftruncate_positive.

Lemma ftruncate_positive_witness :
  asymmetricfs.open_fds_ (one_file true (bytes "abc"))
    !! fuse_file_info.fh (handle 0)
  = Some (internal.mk 3 (Z.lor O_CREAT O_RDWR) 1 "/test" true false
            (bytes "abc") true)
  /\ 0 < 5
  /\ asymmetricfs.ftruncate (one_file true (bytes "abc")) SimpleHost.empty 5
       (handle 0)
     = Some (asymmetricfs.mk true 1 {["/test"%string := 0]}
               {[0 := internal.mk 3 (Z.lor O_CREAT O_RDWR) 1 "/test" true
                        true (bytes "abc" ++ [x00; x00]) true]}
               ["0xTESTKEY"%string],
             SimpleHost.empty, 0).
Proof.
  assert (H2 : 0 < 5) by reflexivity.
  split; [reflexivity|]. split; [exact H2|].
  destruct (ftruncate_positive (one_file true (bytes "abc")) SimpleHost.empty
              (handle 0) _ 5 eq_refl H2) as [_ Hrw].
  destruct (Hrw eq_refl eq_refl) as [Hrun _].
  rewrite Hrun. vm_compute. reflexivity.
Defined.

(** ** [internal::close] *)

Section close.
Context {H : Type} `{Host H}.

(** X6.  [close] is single-shot: whatever the first call did, the state it
    leaves is closed and no longer dirty (when it was open), with its
    buffer kept, and a second call returns 0 changing neither the state
    nor the host.  The first call reports a failed cipher child as -EIO,
    else a failed [close] of the descriptor as the positive error number,
    else 0. *)
Theorem close_single_shot (recipients : list gpg_recipient) (h : H)
    (s : internal.t) :
  let '(h1, s1, ret) := internal.close recipients h s in
  internal.close recipients h1 s1 = (h1, s1, 0)
  /\ internal.open_ s1 = false
  /\ internal.buffer s1 = internal.buffer s
  /\ (internal.open_ s = true ->
      internal.dirty s1 = false
      /\ h1 = host_after_close recipients h s
      /\ ret
         = if internal.dirty s
              && negb ((sys_gpg_encrypt h recipients (internal.fd s)
                          (internal.buffer s)).2 =? 0)
           then - EIO
           else match (sys_close
                         (if internal.dirty s
                          then (sys_gpg_encrypt h recipients (internal.fd s)
                                  (internal.buffer s)).1
                          else h) (internal.fd s)).2 with
                | Ok _ => 0
                | Err errno => errno
                end).
Proof.
  unfold internal.close, host_after_close.
  destruct (internal.open_ s) eqn:Hopen; simpl.
  - destruct (internal.dirty s) eqn:Hdirty.
    + destruct (sys_gpg_encrypt h recipients (internal.fd s)
                  (internal.buffer s)) as [h1 wait_ret]. simpl.
      destruct (sys_close h1 (internal.fd s)) as [h2 close_ret]. simpl.
      repeat split; try done.
      destruct (Z.eqb_spec wait_ret 0); simpl; [done|].
      unfold EIO. done.
    + simpl. destruct (sys_close h (internal.fd s)) as [h2 close_ret]. simpl.
      rewrite Hdirty. repeat split; done.
  - rewrite Hopen. simpl. repeat split; done.
Qed.

End close.

(** ** [internal::load_buffer] *)

Section load_buffer.
Context {H : Type} `{Host H}.

(** Failed [fstat] and [mmap] calls report an error number, never 0. *)
Hypothesis fstat_errno : forall (h : H) fd errno,
  sys_fstat h fd = Err errno -> errno <> 0.
Hypothesis mmap_errno : forall (h : H) fd len errno,
  sys_mmap h fd len = Err errno -> errno <> 0.


End load_buffer.


(** ** The block scan of [load_buffer] *)

Lemma scan_terminator_first (fuel : nat) (underlying : list byte) (limit : Z) :
  forall start : Z,
    fuel = Z.to_nat (limit - start + 1) ->
    let r := internal.scan_terminator fuel underlying limit start in
    (exists p, start <= p <= limit /\ r = p + terminator_size
               /\ terminator_at underlying p
               /\ forall q, start <= q < p -> ~ terminator_at underlying q)
    \/ (r = Z.max start (limit + 1)
        /\ forall q, start <= q <= limit -> ~ terminator_at underlying q).
Proof.
  induction fuel as [|fuel IH]; intros start Hfuel; simpl.
  - right. split; [lia|]. intros q Hq. lia.
  - destruct (Z.leb_spec start limit); [|lia].
    unfold bytes_eqb. case_bool_decide as Hhere.
    + left. exists start. repeat split; [lia|lia|done|]. intros q Hq. lia.
    + destruct (IH (start + 1)) as [(p & Hp & Hr & Hat & Hnone)|[Hr Hnone]];
        [lia| |].
      * left. exists p. repeat split; [lia|lia|done|done|].
        intros q Hq. destruct (Z.eq_dec q start) as [->|]; [|apply Hnone; lia].
        unfold terminator_at. congruence.
      * right. split; [lia|].
        intros q Hq. destruct (Z.eq_dec q start) as [->|]; [|apply Hnone; lia].
        unfold terminator_at. congruence.
Qed.

(** X8.  In a mapping of [fd_size] bytes, at least as long as the terminator,
    the scan from [offset] ends just past the first terminator that starts
    at or after [offset]; when there is none it ends 25 bytes before the
    end of the mapping (or at [offset], if that is later), so that the
    bytes of an unterminated tail are never handed to the cipher in
    full.  Either way the result lies between [offset] and [fd_size], as
    the asserts of the loop require. *)
Theorem find_terminator_first (underlying : list byte)
    (fd_size offset : Z) :
  terminator_size <= fd_size ->
  0 <= offset < fd_size ->
  exists new_offset,
    internal.find_terminator underlying fd_size offset = Some new_offset
    /\ offset <= new_offset <= fd_size
    /\ ((exists p, offset <= p /\ new_offset = p + terminator_size
                   /\ terminator_at underlying p
                   /\ forall q, offset <= q < p ->
                                ~ terminator_at underlying q)
        \/ (new_offset = Z.max offset (fd_size - terminator_size + 1)
            /\ forall q, offset <= q <= fd_size - terminator_size ->
                         ~ terminator_at underlying q)).
Proof.
  intros Hsize Hoff. unfold internal.find_terminator.
  destruct (Z.ltb_spec fd_size terminator_size); [lia|].
  eexists. split; [reflexivity|].
  pose proof (scan_terminator_first
                (Z.to_nat (fd_size - terminator_size - offset + 1)) underlying
                (fd_size - terminator_size) offset eq_refl) as Hscan.
  cbv zeta in Hscan.
  destruct Hscan as [(p & Hp & Hr & Hat & Hnone)|[Hr Hnone]]; rewrite Hr.
  - split; [unfold terminator_size in *; lia|].
    left. exists p. repeat split; [lia|done|done].
  - split; [unfold terminator_size in *; lia|]. right. split; [lia|done].
Qed.

(** Two encrypted blocks, of which the scan from 0 finds the end of the
    first. *)
Lemma find_terminator_first_witness :
  internal.find_terminator
    (SimpleHost.armor (bytes "a") ++ SimpleHost.armor (bytes "b")) 56 0
  = Some 28
  /\ exists new_offset,
       internal.find_terminator
         (SimpleHost.armor (bytes "a") ++ SimpleHost.armor (bytes "b")) 56 0
       = Some new_offset
       /\ 0 <= new_offset <= 56.
Proof.
  split; [vm_compute; reflexivity|].
  destruct (find_terminator_first
              (SimpleHost.armor (bytes "a") ++ SimpleHost.armor (bytes "b"))
              56 0) as (new_offset & Hfind & Hrange & _).
  - vm_compute. discriminate.
  - split; [discriminate|reflexivity].
  - exists new_offset. split; [exact Hfind|exact Hrange].
Defined.

Section load_buffer_abort.
Context {H : Type} `{Host H}.

(** X9.  [load_buffer] has no result exactly when it is called on a closed
    state whose buffer is unknown, or when the buffer is unknown and the
    backing file is mapped, not empty and shorter than the terminator:
    there [fd_size - terminator_size] wraps around as a [size_t] and the
    scan for the terminator runs past the mapping. *)
Theorem load_buffer_aborts_iff (h : H) (s : internal.t) :
  internal.load_buffer h s = None <->
  internal.buffer_set s = false
  /\ (internal.open_ s = false
      \/ exists fd_stat underlying,
           sys_fstat h (internal.fd s) = Ok fd_stat
           /\ 0 < st_size fd_stat < terminator_size
           /\ sys_mmap h (internal.fd s) (st_size fd_stat) = Ok underlying).
Proof.
  split.
  - intros Hload. pose proof (load_buffer_abort h s Hload) as [Hset Hcases].
    split; [done|]. destruct Hcases as [Hclosed|(fd_stat & Hstat & Hshort)];
      [now left|].
    destruct (internal.open_ s) eqn:Hopen; [right|now left].
    unfold internal.load_buffer in Hload. rewrite Hset, Hopen, Hstat in Hload.
    simpl in Hload.
    destruct (Z.leb_spec (st_size fd_stat) 0); [lia|].
    destruct (sys_mmap h (internal.fd s) (st_size fd_stat))
      as [underlying|] eqn:Hmap; [|done].
    exists fd_stat, underlying. done.
  - intros [Hset Hcases]. unfold internal.load_buffer. rewrite Hset.
    destruct (internal.open_ s); simpl; [|done].
    destruct Hcases as [|(fd_stat & underlying & Hstat & Hshort & Hmap)];
      [done|].
    rewrite Hstat. destruct (Z.leb_spec (st_size fd_stat) 0); [lia|].
    rewrite Hmap.
    destruct (Z.to_nat (st_size fd_stat)) as [|fuel] eqn:Hfuel; [lia|].
    simpl. destruct (Z.ltb_spec 0 (st_size fd_stat)); [|lia].
    unfold internal.find_terminator.
    now destruct (Z.ltb_spec (st_size fd_stat) terminator_size); [|lia].
Qed.

End load_buffer_abort.

(** ** Attributes *)

Section attributes.
Context {H : Type} `{Host H}.

(** X10.  The size [fgetattr] reports for an open file whose buffer need not be
    loaded (write-only mode, or a buffer already known): the length of
    the buffer when it is known; else, for a file opened with O_APPEND,
    the size of the backing file plus the length of the buffer; else the
    size of the backing file.  The mode is the host's, and neither the
    mount nor the host changes.  A failing [fstat] is returned negated. *)
Theorem fgetattr_size (fs : asymmetricfs.t) (h : H)
    (info : fuse_file_info.t) (s : internal.t) :
  asymmetricfs.open_fds_ fs !! fuse_file_info.fh info = Some s ->
  asymmetricfs.read_ fs = false \/ internal.buffer_set s = true ->
  match sys_fstat h (internal.fd s) with
  | Err errno =>
      asymmetricfs.fgetattr fs h true info = Some (fs, h, - errno, None)
  | Ok st =>
      asymmetricfs.fgetattr fs h true info
      = Some (fs, h, 0,
              Some (mkStat (st_mode st)
                      (if internal.buffer_set s
                       then buf_size (internal.buffer s)
                       else if has_flag (internal.flags s) O_APPEND
                       then st_size st + buf_size (internal.buffer s)
                       else st_size st)))
  end.
Proof.
  intros Hs Hmode. unfold asymmetricfs.fgetattr, asymmetricfs.statfd.
  rewrite Hs. simpl.
  destruct (sys_fstat h (internal.fd s)) as [st|errno]; [|done].
  assert (Hload : (if asymmetricfs.read_ fs then internal.load_buffer h s
                   else Some (h, s, 0)) = Some (h, s, 0)).
  { destruct (asymmetricfs.read_ fs) eqn:Hrw; [|done].
    destruct Hmode as [|Hset]; [done|].
    unfold internal.load_buffer. now rewrite Hset. }
  rewrite Hload. simpl. rewrite (store_same fs info s Hs).
  assert (Hassert : asymmetricfs.read_ fs && negb (internal.buffer_set s)
                    = false).
  { destruct Hmode as [->| ->]; [done|]. apply andb_false_r. }
  rewrite Hassert.
  destruct (internal.buffer_set s); [done|].
  destruct (has_flag (internal.flags s) O_APPEND); [done|]. now destruct st.
Qed.

(** X11.  [getattr] of a path that is not open answers from [lstat]: its error
    is returned negated; in write-only mode the three read permission bits
    of anything but a directory are cleared and every other bit of the
    mode is kept; directories, and everything in read/write mode, come
    back as the host gave them. *)
Theorem getattr_closed_path (fs : asymmetricfs.t) (h : H) (path : string) :
  asymmetricfs.open_paths_ fs !! path = None ->
  match sys_lstat h (asymmetricfs.relpath path) with
  | Err errno =>
      asymmetricfs.getattr fs h path true = Some (fs, h, - errno, None)
  | Ok st =>
      exists st',
        asymmetricfs.getattr fs h path true = Some (fs, h, 0, Some st')
        /\ st_size st' = st_size st
        /\ if asymmetricfs.read_ fs || asymmetricfs.S_ISDIR (st_mode st)
           then st' = st
           else forall i : Z, 0 <= i ->
                  Z.testbit (st_mode st') i
                  = Z.testbit (st_mode st) i
                    && negb ((i =? 2) || (i =? 5) || (i =? 8))
  end.
Proof.
  intros Hpath. unfold asymmetricfs.getattr. rewrite Hpath. simpl.
  destruct (sys_lstat h (asymmetricfs.relpath path)) as [st|errno]; [|done].
  eexists. split; [reflexivity|].
  destruct (asymmetricfs.read_ fs); simpl; [done|].
  destruct (asymmetricfs.S_ISDIR (st_mode st)); simpl; [done|].
  split; [done|]. intros i Hi.
  rewrite Z.land_spec, Z.lnot_spec by done. f_equal. f_equal.
  change (Z.lor (Z.lor S_IRUSR S_IRGRP) S_IROTH)
    with (Z.lor (Z.lor (2 ^ 8) (2 ^ 5)) (2 ^ 2)).
  rewrite !Z.lor_spec, !Z.pow2_bits_eqb by lia.
  rewrite !(Z.eqb_sym _ i).
  destruct (i =? 2), (i =? 5), (i =? 8); done.
Qed.

End attributes.

Lemma fgetattr_size_witness :
  asymmetricfs.open_fds_
    (asymmetricfs.mk false 1 {["/x"%string := 0]}
       {[0 := internal.mk 3 (Z.lor O_APPEND O_WRONLY) 1 "/x" false true
                (bytes "more") true]} ["0xTESTKEY"%string])
    !! fuse_file_info.fh (handle 0)
  = Some (internal.mk 3 (Z.lor O_APPEND O_WRONLY) 1 "/x" false true
            (bytes "more") true)
  /\ (asymmetricfs.read_
        (asymmetricfs.mk false 1 {["/x"%string := 0]}
           {[0 := internal.mk 3 (Z.lor O_APPEND O_WRONLY) 1 "/x" false true
                    (bytes "more") true]} ["0xTESTKEY"%string]) = false
      \/ false = true)
  /\ (let '(_, _, ret, st) :=
        default (wo_mount, SimpleHost.empty, 1, None)
          (asymmetricfs.fgetattr
             (asymmetricfs.mk false 1 {["/x"%string := 0]}
                {[0 := internal.mk 3 (Z.lor O_APPEND O_WRONLY) 1 "/x" false
                         true (bytes "more") true]} ["0xTESTKEY"%string])
             (SimpleHost.mk {["./x"%string := 1]}
                {[1 := SimpleHost.mkInode 420
                         (SimpleHost.armor (bytes "old"))]}
                {[3 := SimpleHost.mkDescr 1 (Z.lor O_APPEND O_WRONLY) 0]} 2 4)
             true (handle 0)) in
      (ret, st_size <$> st)) = (0, Some 36).
Proof.
  split; [reflexivity|]. split; [now left|].
  pose proof (fgetattr_size
                (asymmetricfs.mk false 1 {["/x"%string := 0]}
                   {[0 := internal.mk 3 (Z.lor O_APPEND O_WRONLY) 1 "/x"
                            false true (bytes "more") true]}
                   ["0xTESTKEY"%string])
                (SimpleHost.mk {["./x"%string := 1]}
                   {[1 := SimpleHost.mkInode 420
                            (SimpleHost.armor (bytes "old"))]}
                   {[3 := SimpleHost.mkDescr 1 (Z.lor O_APPEND O_WRONLY) 0]}
                   2 4)
                (handle 0) _ eq_refl (or_introl eq_refl)) as Hattr.
  simpl in Hattr. rewrite Hattr. vm_compute. reflexivity.
Defined.

Lemma getattr_closed_path_witness :
  asymmetricfs.open_paths_ wo_mount !! "/x"%string = None
  /\ sys_lstat (host_x (bytes "secret")) (asymmetricfs.relpath "/x")
     = Ok (mkStat (Z.lor S_IFREG 420) 38)
  /\ asymmetricfs.getattr wo_mount (host_x (bytes "secret")) "/x" true
     = Some (wo_mount, host_x (bytes "secret"), 0,
             Some (mkStat (Z.lor S_IFREG 128) 38)).
Proof.
  split; [reflexivity|]. split; [vm_compute; reflexivity|].
  pose proof (getattr_closed_path wo_mount (host_x (bytes "secret")) "/x"
                eq_refl) as Hattr.
  simpl in Hattr. destruct Hattr as (st' & Hget & _).
  etransitivity; [exact Hget|].
  vm_compute in Hget. injection Hget as <-. vm_compute. reflexivity.
Defined.

(** ** [rename] *)

Section rename.
Context {H : Type} `{Host H}.
Variables (fs : asymmetricfs.t) (h : H) (oldpath newpath : string).

(** X12.  [rename] first renames on the host; a host failure is returned
    negated with the tables as they were.  After a host success on a path
    that is open, towards a different path that is not, the entry has
    moved: the old path has no entry, the new path leads to the same
    handle id, and the state carries the new path with its buffer, flags
    and reference count unchanged, so that unsaved bytes follow the file;
    every other path and every other handle is as before. *)
Theorem rename_moves_entry :
  match sys_rename h (asymmetricfs.relpath oldpath)
          (asymmetricfs.relpath newpath) with
  | (h', Err errno) =>
      asymmetricfs.rename fs h oldpath newpath = Some (fs, h', - errno)
  | (h', Ok _) =>
      forall id s,
        asymmetricfs.open_paths_ fs !! oldpath = Some id ->
        asymmetricfs.open_fds_ fs !! id = Some s ->
        asymmetricfs.open_paths_ fs !! newpath = None ->
        oldpath <> newpath ->
        exists fs',
          asymmetricfs.rename fs h oldpath newpath = Some (fs', h', 0)
          /\ asymmetricfs.open_paths_ fs' !! oldpath = None
          /\ asymmetricfs.open_paths_ fs' !! newpath = Some id
          /\ asymmetricfs.open_fds_ fs' !! id
             = Some (internal.set_path newpath s)
          /\ (forall p, p <> oldpath -> p <> newpath ->
                asymmetricfs.open_paths_ fs' !! p
                = asymmetricfs.open_paths_ fs !! p)
          /\ (forall id', id' <> id ->
                asymmetricfs.open_fds_ fs' !! id'
                = asymmetricfs.open_fds_ fs !! id')
          /\ asymmetricfs.next_ fs' = asymmetricfs.next_ fs
  end.
Proof.
  unfold asymmetricfs.rename.
  destruct (sys_rename h _ _) as [h' [[]|errno]]; [|done].
  intros id s Hold Hs Hnew Hne. rewrite Hold, Hs.
  eexists. split; [reflexivity|]. simpl.
  unfold asymmetricfs.map_insert. rewrite Hnew.
  split; [apply lookup_delete_eq|].
  split; [rewrite lookup_delete_ne, lookup_insert_eq; done|].
  split; [apply lookup_insert_eq|].
  split; [|split; [|done]].
  - intros p Hp1 Hp2. rewrite lookup_delete_ne, lookup_insert_ne; done.
  - intros id' Hid. rewrite lookup_insert_ne; done.
Qed.

(** When the old path is not open, a successful [rename] leaves the
    tables alone. *)
Lemma rename_closed_path :
  asymmetricfs.open_paths_ fs !! oldpath = None ->
  forall h' r,
    sys_rename h (asymmetricfs.relpath oldpath) (asymmetricfs.relpath newpath)
    = (h', r) ->
    exists ret, asymmetricfs.rename fs h oldpath newpath = Some (fs, h', ret).
Proof.
  intros Hold h' r Hsys. unfold asymmetricfs.rename. rewrite Hsys, Hold.
  destruct r as [[]|errno]; eauto.
Qed.

End rename.

(** The rename scenario: a file with unsaved bytes is renamed while open
    and can then be opened under its new name, reaching the same state. *)
Lemma rename_moves_entry_witness :
  replies (run rw_mount SimpleHost.empty
             [OpCreate "/a" 384 (info0 O_RDWR);
              OpWrite (bytes "draft") 0 (handle 0);
              OpRename "/a" "/b";
              OpOpen "/a" (info0 O_RDONLY);
              OpOpen "/b" (info0 O_RDONLY);
              OpRead 64 0 (handle 0)])
  = Some [RInfo 0 (fuse_file_info.mk (Z.lor O_RDWR O_CREAT) 0);
          RInt 5;
          RInt 0;
          RInfo (- ENOENT) (info0 O_RDONLY);
          RInfo 0 (fuse_file_info.mk O_RDONLY 0);
          RData 5 (bytes "draft")]
  /\ exists fs',
       asymmetricfs.rename (one_file true (bytes "draft")) 
         (SimpleHost.mk {["./test"%string := 1]}
            {[1 := SimpleHost.mkInode 384 []]}
            {[3 := SimpleHost.mkDescr 1 (Z.lor O_CREAT O_RDWR) 0]} 2 4)
         "/test" "/moved"
       = Some (fs',
               SimpleHost.mk {["./moved"%string := 1]}
                 {[1 := SimpleHost.mkInode 384 []]}
                 {[3 := SimpleHost.mkDescr 1 (Z.lor O_CREAT O_RDWR) 0]} 2 4,
               0)
       /\ asymmetricfs.open_paths_ fs' !! "/test"%string = None
       /\ asymmetricfs.open_paths_ fs' !! "/moved"%string = Some 0.
Proof.
  split; [vm_compute; reflexivity|].
  pose proof (rename_moves_entry (one_file true (bytes "draft"))
                (SimpleHost.mk {["./test"%string := 1]}
                   {[1 := SimpleHost.mkInode 384 []]}
                   {[3 := SimpleHost.mkDescr 1 (Z.lor O_CREAT O_RDWR) 0]} 2 4)
                "/test" "/moved") as Hren.
  destruct (sys_rename _ _ _) as [h' [[]|errno]] eqn:Hsys;
    [|vm_compute in Hsys; discriminate].
  destruct (Hren 0 _ eq_refl eq_refl eq_refl) as (fs' & Hrun & Hold & Hnew & _).
  { intros Heq. discriminate Heq. }
  assert (Hh : h' = SimpleHost.mk {["./moved"%string := 1]}
                      {[1 := SimpleHost.mkInode 384 []]}
                      {[3 := SimpleHost.mkDescr 1 (Z.lor O_CREAT O_RDWR) 0]}
                      2 4).
  { vm_compute in Hsys. now injection Hsys as <-. }
  subst h'. exists fs'. done.
Defined.

(** ** [truncate] of a path that is not open *)

Section truncate_closed.
Context {H : Type} `{Host H}.

(** X13.  [truncate] of a path without an entry never changes the mount.  A
    negative length is refused with EINVAL, and in write-only mode a
    positive length with EACCES, both without a host call; length zero is
    the host's [truncate] of the backing file, whose error is returned
    negated. *)
Theorem truncate_closed_path (fs : asymmetricfs.t) (h : H) (path : string)
    (offset : Z) (uninit : bool) :
  asymmetricfs.open_paths_ fs !! path = None ->
  (offset < 0 ->
   asymmetricfs.truncate fs h path offset uninit = Some (fs, h, - EINVAL))
  /\ (0 < offset -> asymmetricfs.read_ fs = false ->
      asymmetricfs.truncate fs h path offset uninit = Some (fs, h, - EACCES))
  /\ (offset = 0 ->
      asymmetricfs.truncate fs h path offset uninit
      = Some (fs, (sys_truncate h (asymmetricfs.relpath path) 0).1,
              match (sys_truncate h (asymmetricfs.relpath path) 0).2 with
              | Ok _ => 0
              | Err errno => - errno
              end))
  /\ (forall fs' h' ret,
        asymmetricfs.truncate fs h path offset uninit = Some (fs', h', ret) ->
        fs' = fs).
Proof.
  intros Hpath. unfold asymmetricfs.truncate. rewrite Hpath.
  split; [|split; [|split]].
  - intros Hneg. now destruct (Z.ltb_spec offset 0); [|lia].
  - intros Hpos ->. destruct (Z.ltb_spec offset 0); [lia|].
    now destruct (Z.eqb_spec offset 0); [lia|].
  - intros ->. simpl.
    now destruct (sys_truncate h (asymmetricfs.relpath path) 0) as [h' [[]|]].
  - intros fs' h' ret Hrun.
    repeat case_match; now simplify_eq.
Qed.

End truncate_closed.

Lemma truncate_closed_path_witness :
  asymmetricfs.open_paths_ wo_mount !! "/x"%string = None
  /\ asymmetricfs.truncate wo_mount (host_x (bytes "secret")) "/x" 0 false
     = Some (wo_mount,
             SimpleHost.mk {["./x"%string := 1]}
               {[1 := SimpleHost.mkInode 420 []]} ∅ 2 3,
             0)
  /\ asymmetricfs.truncate wo_mount (host_x (bytes "secret")) "/x" 4 false
     = Some (wo_mount, host_x (bytes "secret"), - EACCES).
Proof.
  split; [reflexivity|].
  destruct (truncate_closed_path wo_mount (host_x (bytes "secret")) "/x" 0
              false eq_refl) as (_ & _ & Hzero & _).
  destruct (truncate_closed_path wo_mount (host_x (bytes "secret")) "/x" 4
              false eq_refl) as (_ & Hpos & _).
  split.
  - rewrite (Hzero eq_refl). vm_compute. reflexivity.
  - exact (Hpos eq_refl eq_refl).
Defined.

(** ** The asserts on the tables *)

Section asserts.
Context {H : Type} `{Host H}.

Lemma table_inv_asserts (fs : asymmetricfs.t) :
  table_inv fs ->
  (forall (h : H) path info, asymmetricfs.open fs h path info <> None)
  /\ (forall (h : H) oldpath newpath,
        asymmetricfs.rename fs h oldpath newpath <> None).
Proof.
  intros Hfs. split.
  - intros h path info. unfold asymmetricfs.open.
    destruct (asymmetricfs.open_paths_ fs !! path) as [id|] eqn:Hpath.
    + destruct (paths_lead_to_states fs Hfs path id Hpath) as (s & -> & _).
      done.
    + repeat case_match; done.
  - intros h oldpath newpath. unfold asymmetricfs.rename.
    destruct (sys_rename h _ _) as [h' [[]|errno]]; [|done].
    destruct (asymmetricfs.open_paths_ fs !! oldpath) as [id|] eqn:Hpath;
      [|done].
    destruct (paths_lead_to_states fs Hfs oldpath id Hpath) as (s & -> & _).
    done.
Qed.

(** X14.  In every run of callbacks from a fresh mount, on any host, the
    tables stay consistent: every state in the handle table is open with an
    id below the counter, and every entry of the path table leads to a
    state carrying that path.  Hence the asserts of [open] and [rename],
    that the id found in the path table is in the handle table, hold
    whenever either is called: neither ever aborts. *)
Theorem table_asserts_never_fail (read : bool)
    (recipients : list gpg_recipient) (h : H) (ops : list op) :
  Forall
    (fun fs =>
       table_inv fs
       /\ (forall (h' : H) path info,
             asymmetricfs.open fs h' path info <> None)
       /\ (forall (h' : H) oldpath newpath,
             asymmetricfs.rename fs h' oldpath newpath <> None))
    (asymmetricfs.mk read 0 ∅ ∅ recipients
       :: mounts_after (asymmetricfs.mk read 0 ∅ ∅ recipients) h ops).
Proof.
  assert (Hstart : table_inv (asymmetricfs.mk read 0 ∅ ∅ recipients)).
  { split; simpl; intros ? ? Hlookup; now rewrite lookup_empty in Hlookup. }
  pose proof (run_table_inv ops _ h Hstart) as Hrun.
  apply Forall_cons. split; [eauto using table_inv_asserts|].
  eapply Forall_impl; [exact Hrun|].
  intros fs Hfs. eauto using table_inv_asserts.
Qed.

End asserts.

(** ** [readdir] *)

Section readdir.
Import directory.
Context {B : Type}.
Variable filler : @fuse_fill_dir_t B.

Lemma readdir_loop_filter (entries : list dirent) (failure : option Z)
    (buffer : B) (errno : Z) :
  (readdir_loop filler entries failure buffer errno).1.2
  = (readdir_loop filler (filter (fun d => listed (d_type d) = true) entries)
       failure buffer errno).1.2
  /\ (readdir_loop filler entries failure buffer errno).2
     = (readdir_loop filler (filter (fun d => listed (d_type d) = true) entries)
          failure buffer errno).2.
Proof.
  revert buffer errno.
  induction entries as [|d entries IH]; intros buffer errno; [done|].
  rewrite filter_cons. simpl. case_decide as Hd.
  - simpl. rewrite Hd.
    destruct (filler buffer errno (d_name d) _) as [[buffer' errno'] ret].
    destruct (ret =? 0); [apply IH|done].
  - destruct (listed (d_type d)); [done|apply IH].
Qed.

(** X15.  [readdir] never offers a block or character device, a FIFO, a
    socket, or an entry of any type other than link, regular file,
    directory and unknown, to the filler: for every filler, the buffer
    filled and the value returned are those of the same stream with these
    entries removed. *)
Theorem readdir_skips_special_files (dir : DIR) (buffer : B) :
  let dir' := mkDIR (filter (fun d => listed (d_type d) = true) (pending dir))
                (failure dir) in
  (readdir filler dir buffer).1.2 = (readdir filler dir' buffer).1.2
  /\ (readdir filler dir buffer).2 = (readdir filler dir' buffer).2.
Proof.
  apply readdir_loop_filter.
Qed.

Lemma readdir_loop_stops (entries : list dirent) (failure : option Z)
    (buffer : B) (errno : Z) :
  (exists read,
     entries
     = read ++ pending (readdir_loop filler entries failure buffer errno).1.1)
  /\ (pending (readdir_loop filler entries failure buffer errno).1.1 = []
      \/ (readdir_loop filler entries failure buffer errno).2 = 0).
Proof.
  revert buffer errno.
  induction entries as [|d entries IH]; intros buffer errno.
  - split; [exists []; done|now left].
  - simpl. destruct (listed (d_type d)).
    + destruct (filler buffer errno (d_name d) _) as [[buffer' errno'] ret].
      destruct (ret =? 0).
      * destruct (IH buffer' errno') as [[read Hread] Hstop].
        split; [exists (d :: read); simpl; congruence|done].
      * split; [exists [d]; done|now right].
    + destruct (IH buffer errno) as [[read Hread] Hstop].
      split; [exists (d :: read); simpl; congruence|done].
Qed.

(** X16.  [readdir] reads the stream in order and leaves in it the entries
    it has not read; it reports an error only when it has read the stream
    to its end.  Whenever entries are left (the filler has stopped the
    listing with a non-zero return: its buffer is full), [readdir] returns
    0. *)
Theorem readdir_error_only_at_end (dir : DIR) (buffer : B) :
  (exists read,
     pending dir = read ++ pending (readdir filler dir buffer).1.1)
  /\ (pending (readdir filler dir buffer).1.1 = []
      \/ (readdir filler dir buffer).2 = 0).
Proof.
  apply readdir_loop_stops.
Qed.

(** What a listing leaves in the buffer when the filler takes every entry. *)
Lemma readdir_loop_accepting (entries : list dirent) (failure : option Z)
    (buffer : B) (errno : Z) :
  (forall b e name s, (filler b e name s).2 = 0
                      /\ (filler b e name s).1.2 = e) ->
  readdir_loop filler entries failure buffer errno
  = (mkDIR [] failure,
     fold_left
       (fun b d => (filler b errno (d_name d)
                      (mkStat (d_ino d) (DTTOIF (d_type d)))).1.1)
       (filter (fun d => listed (d_type d) = true) entries) buffer,
     - default errno failure).
Proof.
  intros Hacc. revert buffer.
  induction entries as [|d entries IH]; intros buffer.
  - simpl. now destruct failure.
  - rewrite filter_cons. simpl. case_decide as Hd.
    + rewrite Hd. simpl.
      assert (Hty : to_unsigned (d_type d) = d_type d).
      { unfold listed, DT_LNK, DT_REG, DT_DIR, DT_UNKNOWN in Hd.
        unfold to_unsigned.
        repeat (apply orb_prop in Hd; destruct Hd as [Hd|Hd]);
          apply Z.eqb_eq in Hd; rewrite Hd; reflexivity. }
      rewrite Hty.
      pose proof (Hacc buffer errno (d_name d)
                    (mkStat (d_ino d) (DTTOIF (d_type d)))) as [Hret Herr].
      destruct (filler buffer errno (d_name d) _) as [[buffer' errno'] ret].
      simpl in *. subst. simpl. apply IH.
    + destruct (listed (d_type d)); [done|apply IH].
Qed.

(** X17.  With a filler that takes every entry (it returns 0 and leaves [errno]
    alone), [readdir] drains the stream, offers exactly the entries of the
    listed types, in the order of the stream, each with its inode number
    and with [d_type << 12] as its mode, and returns 0 at the end of the
    directory and the negated errno of a failing [::readdir]. *)
Theorem readdir_lists_all (dir : DIR) (buffer : B) :
  (forall b e name s, (filler b e name s).2 = 0
                      /\ (filler b e name s).1.2 = e) ->
  readdir filler dir buffer
  = (mkDIR [] (failure dir),
     fold_left
       (fun b d => (filler b 0 (d_name d)
                      (mkStat (d_ino d) (DTTOIF (d_type d)))).1.1)
       (filter (fun d => listed (d_type d) = true) (pending dir)) buffer,
     - default 0 (failure dir)).
Proof.
  intros Hacc. now apply readdir_loop_accepting.
Qed.

End readdir.

(** The modes of the listed types are the file-type bits of a link, a
    regular file and a directory, and 0 for an unknown type. *)
Lemma DTTOIF_listed (d_type : Z) :
  directory.listed d_type = true ->
  directory.DTTOIF d_type
  = if d_type =? directory.DT_LNK then directory.S_IFLNK
    else if d_type =? directory.DT_REG then directory.S_IFREG
    else if d_type =? directory.DT_DIR then directory.S_IFDIR
    else 0.
Proof.
  unfold directory.listed. intros Hd.
  repeat (apply orb_prop in Hd; destruct Hd as [Hd|Hd]);
    apply Z.eqb_eq in Hd; rewrite Hd; reflexivity.
Qed.

(** A directory with a file, a FIFO, a subdirectory, a socket and a link,
    listed with [collect]; the stream ends with the directory. *)
Lemma readdir_lists_all_witness :
  directory.readdir directory.collect
    (directory.mkDIR
       [directory.mkDirent 11 directory.DT_REG "notes.gpg";
        directory.mkDirent 12 directory.DT_FIFO "pipe";
        directory.mkDirent 13 directory.DT_DIR "mail";
        directory.mkDirent 14 directory.DT_SOCK "agent";
        directory.mkDirent 15 directory.DT_LNK "latest"]
       None)
    []
  = (directory.mkDIR [] None,
     [("notes.gpg"%string, directory.S_IFREG);
      ("mail"%string, directory.S_IFDIR);
      ("latest"%string, directory.S_IFLNK)],
     0).
Proof.
  rewrite (readdir_lists_all directory.collect); [reflexivity|].
  intros b e name s. split; reflexivity.
Defined.

(** A filler with room for one entry stops the listing at the second
    file: 0 is returned, and the third file stays in the stream. *)
Example readdir_full_buffer :
  directory.readdir (directory.bounded 1)
    (directory.mkDIR
       [directory.mkDirent 11 directory.DT_REG "a";
        directory.mkDirent 12 directory.DT_REG "b";
        directory.mkDirent 13 directory.DT_REG "c"]
       None)
    []
  = (directory.mkDIR [directory.mkDirent 13 directory.DT_REG "c"] None,
     [("a"%string, directory.S_IFREG)],
     0).
Proof. reflexivity. Qed.

(** ** [readlink] *)

Section readlink.
Context {H : Type}.
Variable sys_readlink : H -> string -> sysres (list byte).



(** With a buffer of no bytes, a successful host call makes [readlink]
    store the terminator outside the buffer. *)
Lemma readlink_size_zero (h : H) (path : string) (target : list byte) :
  sys_readlink h (asymmetricfs.relpath path) = Ok target ->
  readlink sys_readlink h path [] 0 = None.
Proof.
  intros Hsys. unfold readlink. rewrite Hsys. reflexivity.
Qed.

End readlink.


(** ** The key id in the output of [gpg --fingerprint] *)

Lemma substring_length (s : string) (n m : nat) :
  (n + m <= String.length s)%nat ->
  String.length (String.substring n m s) = m.
Proof.
  revert n m. induction s as [|c s IH]; intros [|n] [|m]; simpl; intros Hlen;
    try lia; try reflexivity.
  - rewrite IH by lia. reflexivity.
  - apply IH. lia.
  - apply IH. lia.
Qed.

Lemma substring_split (s : string) (n a b : nat) :
  String.substring n (a + b) s
  = (String.substring n a s ++ String.substring (n + a) b s)%string.
Proof.
  revert n a. induction s as [|c s IH]; intros n a.
  - destruct n, a, b; reflexivity.
  - destruct n as [|n].
    + destruct a as [|a]; [reflexivity|].
      change (String c (String.substring 0 (a + b) s)
              = String c (String.substring 0 a s
                          ++ String.substring (0 + a) b s)%string).
      f_equal. apply (IH 0%nat a).
    + simpl. apply IH.
Qed.

(** X19.  The key id the helper extracts is the 8 characters that follow the
    first occurrence of the token [pub   <size>R/] in gpg's output; the
    helper fails exactly when the token does not occur, or when fewer than 8
    characters follow its first occurrence. *)
Theorem thumbprint_located (key_size buffer : string) :
  let token := gnupg_key.key_token key_size in
  match gnupg_key.thumbprint key_size buffer with
  | Some thumbprint =>
      exists index,
        first_at token buffer index
        /\ String.substring index (String.length token + 8) buffer
           = (token ++ thumbprint)%string
        /\ String.length thumbprint = 8%nat
  | None =>
      (forall p, String.substring p (String.length token) buffer <> token)
      \/ exists index,
           first_at token buffer index
           /\ (String.length buffer < index + String.length token + 8)%nat
  end.
Proof.
  intros token. unfold gnupg_key.thumbprint. fold token.
  destruct (String.index 0 token buffer) as [index|] eqn:Hfind.
  - assert (Hfirst : first_at token buffer index).
    { split; [now apply (String.index_correct1 0)|].
      intros p Hp. apply (String.index_correct2 0 index); [done|lia|done]. }
    destruct (Nat.ltb_spec (String.length buffer)
                (index + String.length token + 8)) as [Hshort|Hroom].
    + right. eauto.
    + exists index. split; [done|]. split.
      * rewrite substring_split. now rewrite (proj1 Hfirst).
      * apply substring_length. lia.
  - left. intros p. apply (String.index_correct3 0); [done| |lia].
    discriminate.
Qed.

(** The output of gpg 1.x for a 1024-bit test key. *)
Example thumbprint_of_listing :
  gnupg_key.thumbprint "1024"
    "/tmp/keys/pubring.gpg
---------------------
pub   1024R/7F3A9C21 2014-03-02
      Key fingerprint = 4E1B 5C02 9D77 A3F0 6B18  22C4 90AE 51D3 7F3A 9C21
uid                  Testing <test@example.com>
"
  = Some "7F3A9C21"%string
  /\ gnupg_key.thumbprint "1024" "pub   1024R/7F3A" = None
  /\ gnupg_key.thumbprint "2048" "pub   1024R/7F3A9C21" = None.
Proof.
  repeat split; reflexivity.
Qed.

(** ** A write-only mount never decrypts *)

Section write_only.
Context {H : Type} (I : Host H).
Variable decrypt : H -> gpg_stdin -> H * gpg_output.

Lemma step_write_only (fs : asymmetricfs.t) (h : H) (o : op) :
  asymmetricfs.read_ fs = false ->
  @step H (with_decrypt I decrypt) fs h o = @step H I fs h o.
Proof.
  destruct fs as [read next paths fds recipients]. simpl. intros ->.
  destruct o; reflexivity.
Qed.

Lemma step_read_mode (fs : asymmetricfs.t) (h : H) (o : op) fs' h' r :
  asymmetricfs.read_ fs = false ->
  @step H I fs h o = Some (fs', h', r) ->
  asymmetricfs.read_ fs' = false.
Proof.
  destruct fs as [read next paths fds recipients]. simpl. intros -> Hstep.
  destruct o; simpl in Hstep.
  all: unfold asymmetricfs.create, asymmetricfs.open, asymmetricfs.read,
         asymmetricfs.write, asymmetricfs.truncate, asymmetricfs.ftruncate,
         asymmetricfs.truncatefd, asymmetricfs.release, asymmetricfs.rename,
         asymmetricfs.getattr, asymmetricfs.fgetattr, asymmetricfs.statfd,
         asymmetricfs.register in Hstep; simpl in Hstep.
  all: repeat (first [progress simplify_eq /= | case_match]);
    reflexivity.
Qed.

(** X20.  In write-only mode no callback runs the decrypting child: the
    replies of every run of callbacks, and the mount and the host it
    leaves, are the same whatever that child would do.  So nothing a
    write-only mount returns depends on the plaintext of what is on
    disk. *)
Theorem write_only_never_decrypts (fs : asymmetricfs.t) (h : H)
    (ops : list op) :
  asymmetricfs.read_ fs = false ->
  @run H (with_decrypt I decrypt) fs h ops = @run H I fs h ops.
Proof.
  revert fs h. induction ops as [|o ops IH]; intros fs h Hro; [done|].
  simpl. rewrite step_write_only by done.
  destruct (@step H I fs h o) as [[[fs1 h1] r]|] eqn:Hstep; [|done].
  simpl. rewrite IH by eauto using step_read_mode. done.
Qed.

End write_only.

(** A write-only mount over a file that holds a message: with a child
    that would hand out the plaintext and with one that fails, the
    replies are the same, and the read is refused. *)
Lemma write_only_never_decrypts_witness :
  asymmetricfs.read_ wo_mount = false
  /\ replies
       (@run _ (with_decrypt SimpleHost.host
                  (fun h _ => (h, mkOutput [] 0 2)))
          wo_mount (host_x (bytes "secret"))
          [OpOpen "/x" (info0 O_RDONLY); OpRead 64 0 (handle 0);
           OpGetattr "/x" true; OpRelease (handle 0)])
     = Some [RInfo 0 (fuse_file_info.mk O_RDONLY 0); RData (- EACCES) [];
             RStat 0 (Some (mkStat (Z.lor S_IFREG 420) 38)); RInt 0].
Proof.
  split; [reflexivity|].
  rewrite (write_only_never_decrypts SimpleHost.host
             (fun h _ => (h, mkOutput [] 0 2)) wo_mount
             (host_x (bytes "secret")) _ eq_refl).
  vm_compute. reflexivity.
Defined.
